(** * Identity redaction: [tools/redact.py] and [tools/extract.py]

    A shallow embedding of the redaction tool: the identity encoder
    [identity_octets], the rule synthesizer [yara_rules], the match
    collection [matches_from], the overwrite and the per-file loop of
    [main], together with the disclosure heuristic [heur_ue_id_sent] of
    [extract.py].

    Python values are modelled as follows: [str] is [string], [int] is [Z]
    (offsets and lengths, which are never negative, are [nat]), [bytes] is
    [list Z] with every element in 0..255, a raised exception is the left
    injection of [result].  The file system is a finite map from paths to
    contents; a path that is not in the map cannot be opened. *)

From Stdlib Require Import ZArith List String Ascii Lia Bool.
From Stdlib Require Import DecimalPos DecimalString HexadecimalString Permutation Sorted.
From Stdlib Require Import HexadecimalFacts HexadecimalZ.
From stdpp Require Import base gmap strings.
Import ListNotations.

Local Open Scope string_scope.
Local Open Scope list_scope.
Local Open Scope Z_scope.

(** ** Exceptions *)

Inductive exn : Type :=
| IndexError      (* subscript of an empty string, layer that a packet lacks *)
| ValueError      (* int() or unhexlify() on a malformed text, unpacking *)
| EltErr          (* pycrate_core.elt.EltErr *)
| OSError         (* a file that cannot be opened *)
| CompileError    (* the rule text is rejected by the scanning engine *)
| ScanError.      (* the engine cannot read the haystack *)

Definition result (A : Type) : Type := (exn + A)%type.

Definition raise {A} (e : exn) : result A := inl e.
Definition ret {A} (a : A) : result A := inr a.

Definition bind {A B} (m : result A) (k : A -> result B) : result B :=
  match m with
  | inl e => inl e
  | inr a => k a
  end.

Notation "'do' x <- m ; k" := (bind m (fun x => k))
  (at level 10, x name, m at level 100, k at level 200).

Fixpoint mapM {A B} (f : A -> result B) (l : list A) : result (list B) :=
  match l with
  | [] => ret []
  | a :: l' => do b <- f a; do bs <- mapM f l'; ret (b :: bs)
  end.

(** ** The Python builtins the tool uses *)

Module Py.

(** [str(n)] for an [int]. *)
Definition str (n : Z) : string :=
  DecimalString.NilZero.string_of_int (Z.to_int n).

(** [f"{n:x}"]: lower-case hexadecimal, no prefix, no leading zero. *)
Definition format_x (n : Z) : string :=
  HexadecimalString.NilZero.string_of_int (Z.to_hex_int n).

Definition code (c : ascii) : Z := Z.of_nat (nat_of_ascii c).

Definition is_decimal (c : ascii) : bool :=
  (48 <=? code c) && (code c <=? 57).

(** Value of a hexadecimal digit, either case. *)
Definition hexval (c : ascii) : option Z :=
  let n := code c in
  if (48 <=? n) && (n <=? 57) then Some (n - 48)
  else if (97 <=? n) && (n <=? 102) then Some (n - 87)
  else if (65 <=? n) && (n <=? 70) then Some (n - 55)
  else None.

(** The lower-case digit [bytes.hex()] prints for a nibble. *)
Definition hexchar (n : Z) : ascii :=
  if n <? 10 then ascii_of_nat (Z.to_nat (48 + n))
  else ascii_of_nat (Z.to_nat (87 + n)).

Fixpoint hex_digits (s : string) (acc : Z) : option Z :=
  match s with
  | EmptyString => Some acc
  | String c r =>
      match hexval c with
      | Some d => hex_digits r (16 * acc + d)
      | None => None
      end
  end.

(** [int(s, 16)] on a text of hexadecimal digits.  The builtin also
    accepts blanks around the number, a sign, a [0x] prefix and single
    underscores between digits; those forms are not modelled and are
    reported as [ValueError] here. *)
Definition int16 (s : string) : result Z :=
  match s with
  | EmptyString => raise ValueError
  | _ => match hex_digits s 0 with
         | Some v => ret v
         | None => raise ValueError
         end
  end.

(** [s[0]] *)
Definition index0 (s : string) : result ascii :=
  match s with
  | EmptyString => raise IndexError
  | String c _ => ret c
  end.

(** [s[1:]] *)
Definition from1 (s : string) : string :=
  match s with
  | EmptyString => EmptyString
  | String _ r => r
  end.

(** [s[lo:-1]]: from index [lo] up to, not including, the last
    character; empty when the string is too short. *)
Definition slice_to_last (lo : nat) (s : string) : string :=
  substring lo (String.length s - 1 - lo) s.

(** [binascii.unhexlify]: two hexadecimal digits per byte. *)
Fixpoint unhexlify (s : string) : result (list Z) :=
  match s with
  | EmptyString => ret []
  | String _ EmptyString => raise ValueError
  | String a (String b r) =>
      match hexval a, hexval b with
      | Some h, Some l => do bs <- unhexlify r; ret ((16 * h + l) :: bs)
      | _, _ => raise ValueError
      end
  end.

(** [bytes.hex()] *)
Fixpoint bytes_hex (bs : list Z) : string :=
  match bs with
  | [] => EmptyString
  | b :: bs' => String (hexchar (b / 16)) (String (hexchar (b mod 16)) (bytes_hex bs'))
  end.

(** [sorted(l, key=key)]: the builtin sort is stable, an element is
    placed before the elements of equal key that followed it. *)
Fixpoint insert_by {A} (key : A -> nat) (x : A) (l : list A) : list A :=
  match l with
  | [] => [x]
  | y :: l' => if (key x <=? key y)%nat then x :: l else y :: insert_by key x l'
  end.

Definition sorted {A} (key : A -> nat) (l : list A) : list A :=
  fold_right (insert_by key) [] l.

(** Predicates on texts, for the statements below. *)
Fixpoint all_chars (p : ascii -> bool) (s : string) : bool :=
  match s with
  | EmptyString => true
  | String c r => p c && all_chars p r
  end.

Definition is_hex (c : ascii) : bool :=
  match hexval c with
  | Some _ => true
  | None => false
  end.

(** A character that [format_x] and [bytes.hex()] can print. *)
Definition is_lower_hex (c : ascii) : bool :=
  is_decimal c || ((97 <=? code c) && (code c <=? 102)).

Definition is_byte (b : Z) : Prop := 0 <= b < 256.

(** Nibble [i] of [v] read as a sequence of [w] nibbles, the most
    significant first. *)
Definition nibble_at (w : nat) (v : Z) (i : nat) : Z :=
  (v / 16 ^ Z.of_nat (w - 1 - i)) mod 16.

End Py.

(** ** pycrate: BCD packing and the decoded messages *)

Module Pycrate.

(** Swap the two characters of every pair
    ([dig[1::2], dig[::2] = dig[::2], dig[1::2]]). *)
Fixpoint swap_pairs (s : string) : string :=
  match s with
  | String a (String b r) => String b (String a (swap_pairs r))
  | _ => s
  end.

(** Modelled from the spec: [encode_bcd] belongs to the pycrate library
    and is not part of the repository.  It is the standard telecom BCD
    packing of the spec, two digits per byte: the first digit of a pair
    in the low nibble, the second in the high nibble, and a filler
    nibble [F] after an odd number of digits. *)
Definition encode_bcd (dig : string) : result (list Z) :=
  let dig := if Nat.odd (String.length dig) then dig +:+ "F" else dig in
  Py.unhexlify (swap_pairs dig).

(** An identity: the type code and the digit string. *)
Definition identity : Type := (Z * string)%type.

(** What [decode()] of an identity element returned: the pair of a type
    code and a digit string, or a value of another shape, which the
    assignment [t, i = ...] cannot unpack (a GUTI decodes to a tuple of
    five components). *)
Inductive decoded : Type :=
| Pair (i : identity)
| NotPair.

(** The decoded messages the heuristic inspects.  What [decode()] of an
    identity element gives is part of the message: [None] stands for a
    decoder that raises [EltErr]. *)
Record attach_request : Type := {
  EPSAttachType : Z;                 (* msg["EPSAttachType"]["V"].to_int() *)
  EPSID : option decoded             (* msg["EPSID"]["EPSID"].decode() *)
}.

Record security_mode_complete : Type := {
  IMEISV : option decoded            (* msg["IMEISV"]["ID"].decode() *)
}.

(** What a security-protected message carries. *)
Inductive sec_payload : Type :=
| WrapsAttachRequest (a : attach_request)
| WrapsSecurityModeComplete (s : security_mode_complete)
| WrapsOther.                        (* ciphered, or any other message *)

Inductive emm_msg : Type :=
| EMMAttachRequest (a : attach_request)
| EMMSecProtNASMessage (p : sec_payload)
| EMMSecurityModeComplete (s : security_mode_complete)
| EMMOther.                          (* any other message class *)

(** [msg["EMMAttachRequest"]] on a security-protected message: the
    wrapped attach request, [EltErr] when there is none. *)
Definition get_attach_request (p : sec_payload) : result emm_msg :=
  match p with
  | WrapsAttachRequest a => ret (EMMAttachRequest a)
  | _ => raise EltErr
  end.

End Pycrate.

(** ** The scanning engine *)

Module Yara.

(** A rule as [yara_rules] writes it: its name and its hex strings, each
    an identifier and the text between the braces.  The condition of
    every rule the tool writes is the disjunction of its strings. *)
Record rule : Type := {
  rule_name : string;
  rule_strings : list (string * string)
}.

Inductive nibble : Type :=
| Wild
| Lit (v : Z).

Definition byte_pattern : Type := (nibble * nibble)%type.

Definition parse_nibble (c : ascii) : option nibble :=
  if Ascii.eqb c "?" then Some Wild
  else match Py.hexval c with
       | Some v => Some (Lit v)
       | None => None
       end.

(** A character of a pattern text that stands for a literal nibble. *)
Definition not_wildcard (c : ascii) : bool := negb (Ascii.eqb c "?").

(** Modelled from the spec: the engine is an external library.  A
    pattern is a sequence of nibble pairs, one pair for each haystack
    byte; a text that is not made of whole pairs of hexadecimal digits
    or wildcards is not a pattern. *)
Fixpoint parse_pattern (s : string) : option (list byte_pattern) :=
  match s with
  | EmptyString => Some []
  | String _ EmptyString => None
  | String a (String b r) =>
      match parse_nibble a, parse_nibble b, parse_pattern r with
      | Some h, Some l, Some ps => Some ((h, l) :: ps)
      | _, _, _ => None
      end
  end.

Record compiled_rule : Type := {
  crule_name : string;
  crule_patterns : list (string * list byte_pattern)
}.

Definition compile_string (s : string * string) : result (string * list byte_pattern) :=
  match parse_pattern (snd s) with
  | Some (p :: ps) => ret (fst s, p :: ps)
  | _ => raise CompileError
  end.

Definition compile_rule (r : rule) : result compiled_rule :=
  do ps <- mapM compile_string (rule_strings r);
  ret {| crule_name := rule_name r; crule_patterns := ps |}.

Fixpoint distinct (l : list string) : bool :=
  match l with
  | [] => true
  | x :: l' => negb (existsb (String.eqb x) l') && distinct l'
  end.

(** Modelled from the spec: [compile] of the scanner, an external engine.
    Every string of every rule has to be a pattern.  A rule set without
    rules is accepted and matches nothing, which is the nothing-to-redact
    outcome of a run.

    What the engine does with a rule set in which two rules bear one name
    is said neither in the repository nor in the spec, so it is a
    parameter: with [unique_names] the engine refuses such a rule set, as
    the rule language of the engine the tool imports does; without it the
    names are not looked at. *)
Definition compile (unique_names : bool) (needle : list rule)
  : result (list compiled_rule) :=
  if distinct (map rule_name needle) || negb unique_names
  then mapM compile_rule needle
  else raise CompileError.

(** A match.  [pattern] records the identifier of the string the match
    belongs to, which the tool prints next to the offset and the
    length. *)
Record Match : Type := {
  offset : nat;
  length : nat;
  pattern : string
}.

Definition nibble_ok (p : nibble) (n : Z) : bool :=
  match p with
  | Wild => true
  | Lit v => v =? n
  end.

(** Modelled from the spec: a haystack byte matches a nibble pair iff
    each nibble that is not a wildcard equals the byte's nibble. *)
Definition byte_ok (p : byte_pattern) (b : Z) : bool :=
  nibble_ok (fst p) (b / 16) && nibble_ok (snd p) (b mod 16).

Fixpoint match_here (pat : list byte_pattern) (hay : list Z) : bool :=
  match pat, hay with
  | [], _ => true
  | p :: ps, b :: bs => byte_ok p b && match_here ps bs
  | _ :: _, [] => false
  end.

(** Modelled from the spec: every occurrence is reported, by a sliding
    window over the haystack, in ascending offset. *)
Fixpoint find_from (id : string) (pat : list byte_pattern) (hay : list Z) (off : nat)
  : list Match :=
  match hay with
  | [] => []
  | _ :: tl =>
      (if match_here pat hay
       then [{| offset := off; length := List.length pat; pattern := id |}]
       else [])
      ++ find_from id pat tl (S off)
  end.

(** The strings of a rule with their matches ([mr.patterns]). *)
Definition scan_rule (r : compiled_rule) (hay : list Z) : list (string * list Match) :=
  map (fun p => (fst p, find_from (fst p) (snd p) hay 0%nat)) (crule_patterns r).

(** A rule matches when its condition holds: one of its strings has a
    match. *)
Definition rule_matches (ps : list (string * list Match)) : bool :=
  existsb (fun p => match snd p with [] => false | _ :: _ => true end) ps.

(** The result of a scan: the matching rules, in the order of the rule
    set ([results.matching_rules]). *)
Definition scan_bytes (rules : list compiled_rule) (hay : list Z)
  : list (list (string * list Match)) :=
  List.filter rule_matches (map (fun r => scan_rule r hay) rules).

(** Every occurrence of every string of a rule set, in the order of the
    rule set: rule by rule, string by string, by ascending offset. *)
Definition all_matches (rules : list compiled_rule) (hay : list Z) : list Match :=
  flat_map (fun r => flat_map (fun p => find_from (fst p) (snd p) hay 0%nat)
                              (crule_patterns r)) rules.

(** [m] is an occurrence of a string of the rule set in the haystack. *)
Definition occurrence (rules : list compiled_rule) (hay : list Z) (m : Match) : Prop :=
  exists r pat,
    In r rules /\ In (pattern m, pat) (crule_patterns r)
    /\ length m = List.length pat
    /\ (offset m < List.length hay)%nat
    /\ match_here pat (skipn (offset m) hay) = true.

End Yara.

(** ** extract.py *)

Module Extract.
Import Pycrate.

Definition EPS_IMSI_ATTACH : Z := 2.

(** The second component of what the heuristic returns. *)
Inductive message : Type :=
| NoMessage                          (* None *)
| Text (s : string)
| Ident (i : identity).

(** The marker an identity decodes to once it was overwritten:
    [str(0xA)]. *)
Definition redacted_marker : string := Py.str 10.

(** [t, i = d.decode()] inside [try: ... except EltErr]: the unpacking
    of a value that is not a pair raises [ValueError], which is not
    caught. *)
Definition check_identity (d : option decoded) : result (bool * message) :=
  match d with
  | Some (Pair (t, i)) =>
      if String.eqb i redacted_marker
      then ret (false, Text "This was previously redacted.")
      else ret (true, Ident (t, i))
  | Some NotPair => raise ValueError
  | None => ret (false, NoMessage)   (* except EltErr *)
  end.

Definition heur_ue_id_sent (msg : emm_msg) : result (bool * message) :=
  match msg with
  | EMMOther => ret (false, NoMessage)
  | _ =>
      let unwrapped :=
        match msg with
        | EMMSecProtNASMessage p => get_attach_request p
        | _ => ret msg
        end in
      match unwrapped with
      | inl _ => ret (false, NoMessage)
      | inr msg =>
          match msg with
          | EMMAttachRequest a =>
              if EPSAttachType a =? EPS_IMSI_ATTACH
              then check_identity (EPSID a)
              else ret (false, NoMessage)
          | EMMSecurityModeComplete s => check_identity (IMEISV s)
          | _ => ret (false, NoMessage)
          end
      end
  end.

(** A packet as the capture reader yields it.  [gsmtap[UDP][Raw]] is the
    payload of its UDP layer; on a packet without that layer the
    subscript raises [IndexError]. *)
Inductive packet : Type :=
| NoUDPRaw
| UDPRaw (load : list Z).

Definition udp_raw (gsmtap : packet) : result (list Z) :=
  match gsmtap with
  | NoUDPRaw => raise IndexError
  | UDPRaw load => ret load
  end.

Section Main.
(** [parse_nas_message]: the protocol decoder; [None] when it raises
    [TypeError] (not a NAS message). *)
Variable parse_nas_message : list Z -> option emm_msg.

(** The body of the loop for one packet: the identity that is appended,
    if any.  The first 16 bytes of the payload are the GSMTAP header.
    Only [TypeError] is caught; [triggered] is set only together with an
    identity. *)
Definition on_packet (gsmtap : packet) : result (option identity) :=
  do load <- udp_raw gsmtap;
  match parse_nas_message (skipn 16 load) with
  | None => ret None                             (* except TypeError: pass *)
  | Some msg =>
      do r <- heur_ue_id_sent msg;
      match r with
      | (true, Ident i) => ret (Some i)
      | _ => ret None
      end
  end.

Fixpoint main (packets : list packet) : result (list identity) :=
  match packets with
  | [] => ret []
  | gsmtap :: rest =>
      do found <- on_packet gsmtap;
      do idents <- main rest;
      ret match found with
          | Some i => i :: idents
          | None => idents
          end
  end.
End Main.

End Extract.

(** ** redact.py *)

Module Redact.
Import Pycrate.

Definition IDTYPE_IMSI : Z := 1.
Definition IDTYPE_IMEISV : Z := 3.

(** The mobile identity as an [int]: the first digit, the type and
    parity written by [str], and the BCD packing of the other digits, read
    as one hexadecimal number. *)
Definition identity_octets (idtype : Z) (ident : string) : result Z :=
  let type_and_parity :=
    Py.str (idtype + 8 * (Z.of_nat (String.length ident) mod 2)) in
  do c <- Py.index0 ident;
  do bcd <- encode_bcd (Py.from1 ident);
  Py.int16 (String c (type_and_parity +:+ Py.bytes_hex bcd)).

(** ["??" + shift1[2:-1] + "?"], and the same for [shift2]. *)
Definition shift12 (shifted : string) : string :=
  "??" +:+ Py.slice_to_last 2 shifted +:+ "?".

(** ["0" + shift3[0] + "??" + shift3[3:-1] + "?"] *)
Definition shift3_pattern (shifted : string) : result string :=
  do c <- Py.index0 shifted;
  ret ("0" +:+ String c "" +:+ "??" +:+ Py.slice_to_last 3 shifted +:+ "?").

(** The rule of one identity: the literal octets and the three shifted
    strings with their don't-care nibbles.  [typ] is the type code as
    [decode()] returned it, an [int], on which [int(typ)] does
    nothing. *)
Definition yara_rules (typ : Z) (ident : string) : result Yara.rule :=
  do ident_octets <- identity_octets typ ident;
  let shift1 := Py.format_x (Z.shiftl ident_octets 1) in
  let shift2 := Py.format_x (Z.shiftl ident_octets 2) in
  let shift3 := Py.format_x (Z.shiftl ident_octets 3) in
  let shift1 := shift12 shift1 in
  let shift2 := shift12 shift2 in
  do shift3 <- shift3_pattern shift3;
  ret {| Yara.rule_name := "mobile_id_type" +:+ Py.str typ;
         Yara.rule_strings :=
           [ ("$ident" +:+ Py.str typ, Py.format_x ident_octets);
             ("$shift1", shift1);
             ("$shift2", shift2);
             ("$shift3", shift3) ] |}.

(** Shapes of a shifted string [p] against the hexadecimal text [s] of
    the shifted value, for the statements below.  [boundary_wild]: as
    long as [s], a wildcard in the first two places and in the last one,
    the nibble of [s] everywhere else. *)
Definition boundary_wild (s p : string) : Prop :=
  String.length p = String.length s
  /\ forall i, (i < String.length s)%nat ->
       String.get i p
       = if (i <? 2)%nat || (i =? String.length s - 1)%nat
         then Some "?"%char else String.get i s.

(** [zero_prefixed]: a literal [0], then [s] with a wildcard in its
    second, third and last place. *)
Definition zero_prefixed (s p : string) : Prop :=
  String.length p = S (String.length s)
  /\ String.get 0 p = Some "0"%char
  /\ forall i, (i < String.length s)%nat ->
       String.get (S i) p
       = if (i =? 1)%nat || (i =? 2)%nat || (i =? String.length s - 1)%nat
         then Some "?"%char else String.get i s.

(** The files: a path that is absent cannot be opened. *)
Abbreviation files := (gmap string (list Z)).

Definition scan (unique_names : bool) (needle : list Yara.rule) (fs : files)
    (haystack : string) : result (list (list (string * list Yara.Match))) :=
  do rules <- Yara.compile unique_names needle;
  match fs !! haystack with
  | None => raise ScanError
  | Some bytes => ret (Yara.scan_bytes rules bytes)
  end.

(** Every match of every string of every matching rule, then sorted on
    the offset alone. *)
Definition collect_matches (results : list (list (string * list Yara.Match)))
  : list Yara.Match :=
  concat (map (fun mr => concat (map snd mr)) results).

Definition matches_from (results : list (list (string * list Yara.Match)))
  : list Yara.Match :=
  Py.sorted Yara.offset (collect_matches results).

(** [f.seek(off); f.write(data)] on a file opened for update. *)
Definition write_at (content : list Z) (off : nat) (data : list Z) : list Z :=
  firstn off content ++ repeat 0 (off - List.length content)
    ++ data ++ skipn (off + List.length data) content.

Definition overwrite_bytes (content : list Z) (matches : list Yara.Match) (b : Z)
  : list Z :=
  fold_left (fun c m => write_at c (Yara.offset m) (repeat b (Yara.length m)))
            matches content.

Definition overwrite_file (fs : files) (filename : string)
    (matches : list Yara.Match) (with_byte : Z) : result files :=
  match fs !! filename with
  | None => raise OSError
  | Some content => ret (<[filename := overwrite_bytes content matches with_byte]> fs)
  end.

(** What the run prints about a file. *)
Inductive outcome : Type :=
| NoMatches        (* "no mobile identities found" *)
| Verified         (* "verified" *)
| Failed.          (* "error: redaction unsuccessful" *)


(** How the run ends: [exit(code)], or an exception nobody catches. *)
Inductive ending : Type :=
| Exit (code : Z)
| Uncaught (e : exn).

Record run : Type := {
  ended : ending;
  disk : files;
  report : list (string * outcome)
}.

Section Main.
(** The engine's treatment of rules of one name, see [Yara.compile]. *)
Variable unique_names : bool.

(** The second loop of [main]. *)
Fixpoint redact_loop (needle : list Yara.rule) (fs : files) (haystacks : list string)
    (EXIT : Z) (rep : list (string * outcome)) : run :=
  match haystacks with
  | [] => {| ended := Exit EXIT; disk := fs; report := rep |}
  | h :: rest =>
      match scan unique_names needle fs h with
      | inl e => {| ended := Uncaught e; disk := fs; report := rep |}
      | inr results =>
          match matches_from results with
          | [] => redact_loop needle fs rest EXIT (rep ++ [(h, NoMatches)])
          | before =>
              match overwrite_file fs h before 170 with
              | inl e => {| ended := Uncaught e; disk := fs; report := rep |}
              | inr fs' =>
                  match scan unique_names needle fs' h with
                  | inl e => {| ended := Uncaught e; disk := fs'; report := rep |}
                  | inr after =>
                      if (0 <? List.length after)%nat
                      then redact_loop needle fs' rest 2 (rep ++ [(h, Failed)])
                      else redact_loop needle fs' rest EXIT (rep ++ [(h, Verified)])
                  end
              end
          end
      end
  end.

(** The capture reader: the packets of a capture, [None] when it raises
    [Scapy_Exception]. *)
Variable rdpcap : list Z -> option (list Extract.packet).
Variable parse_nas_message : list Z -> option emm_msg.

(** The body of the first loop for one file: the identities extracted
    from it.  Only [Scapy_Exception] is caught: a file that is not a
    capture has no identities; a file that cannot be opened and an
    exception of the extraction end the loop. *)
Definition identities_of (fs : files) (h : string) : result (list identity) :=
  match fs !! h with
  | None => raise OSError
  | Some bytes =>
      match rdpcap bytes with
      | None => ret []                            (* except Scapy_Exception *)
      | Some packets => Extract.main parse_nas_message packets
      end
  end.

(** The first loop of [main]: the identities of all the files. *)
Fixpoint collect_idents (fs : files) (haystacks : list string) (idents : gset identity)
  : result (gset identity) :=
  match haystacks with
  | [] => ret idents
  | h :: rest =>
      do found <- identities_of fs h;
      collect_idents fs rest (idents ∪ list_to_set found)
  end.

Definition build_needle (idents : gset identity) : result (list Yara.rule) :=
  mapM (fun i => yara_rules (fst i) (snd i)) (elements idents).

Definition main (fs : files) (haystacks : list string) : run :=
  match collect_idents fs haystacks ∅ with
  | inl e => {| ended := Uncaught e; disk := fs; report := [] |}
  | inr idents =>
      match build_needle idents with
      | inl e => {| ended := Uncaught e; disk := fs; report := [] |}
      | inr needle => redact_loop needle fs haystacks 0 []
      end
  end.
End Main.

End Redact.

(** ** nasparse.py *)

Module Nasparse.
Import Pycrate.

(** What [parse_nas_message] and its callers can raise: [TypeError], or
    one of the exceptions above. *)
Inductive error : Type :=
| TypeError                          (* "Not a nas packet" *)
| Raised (e : exn).

(** The buffer is a [str] of hexadecimal digits or [bytes]. *)
Inductive buffer : Type :=
| Hex (s : string)
| Bytes (b : list Z).

Definition EPS_IMSI_ATTACH : Z := 2.

Section Parse.
(** [NASLTE.parse_NASLTE_MO] and [NASLTE.parse_NASLTE_MT], the decoders
    of pycrate: the first component of what they return, [None] when the
    bytes are not a message of that direction. *)
Variable parse_NASLTE_MO : list Z -> option emm_msg.
Variable parse_NASLTE_MT : list Z -> option emm_msg.

(** [uplink] is [None] when the direction is not known, else the truth
    value of the argument. *)
Definition parse_nas_message (buf : buffer) (uplink : option bool) : error + emm_msg :=
  let bin :=
    match buf with
    | Hex s => Py.unhexlify s
    | Bytes b => inr b
    end in
  match bin with
  | inl e => inl (Raised e)
  | inr bin =>
      let parsed :=
        match uplink with
        | Some true => parse_NASLTE_MO bin
        | None =>
            match parse_NASLTE_MO bin with
            | None => parse_NASLTE_MT bin
            | Some m => Some m
            end
        | Some false => parse_NASLTE_MT bin
        end in
      match parsed with
      | None => inl TypeError
      | Some m => inr m
      end
  end.
End Parse.

Definition output : string := "device transmitted IMSI to base station!".

Definition heur_ue_imsi_sent (msg : emm_msg) : bool * option string :=
  match msg with
  | EMMAttachRequest _ | EMMSecProtNASMessage _ =>
      let unwrapped :=
        match msg with
        | EMMSecProtNASMessage p => get_attach_request p
        | _ => ret msg
        end in
      match unwrapped with
      | inl _ => (false, None)
      | inr (EMMAttachRequest a) =>
          if EPSAttachType a =? EPS_IMSI_ATTACH then (true, Some output) else (false, None)
      | inr _ => (false, None)
      end
  | _ => (false, None)
  end.

End Nasparse.

(** ** pcap_check.py *)

Module PcapCheck.
Import Pycrate.

Definition TYPE_LTE_NAS : Z := 0x12.
Definition UDP_LEN : nat := 28.

(** [data[i]] on [bytes] *)
Definition byte_at (data : list Z) (i : nat) : Nasparse.error + Z :=
  match nth_error data i with
  | Some b => inr b
  | None => inl (Nasparse.Raised IndexError)
  end.

(** [data[lo:hi]] *)
Definition slice (data : list Z) (lo hi : nat) : list Z :=
  firstn (hi - lo) (skipn lo data).

(** How the loop over the frames ends. *)
Inductive ending : Type :=
| Done
| Aborted (e : Nasparse.error).

Section Process.
Variable parse_NASLTE_MO : list Z -> option emm_msg.
Variable parse_NASLTE_MT : list Z -> option emm_msg.

(** One frame: [inr None] when the frame is skipped, [inr (Some t)] when
    it was decoded and the heuristic returned [t]. *)
Definition process_frame (pkt_data : list Z) : Nasparse.error + option bool :=
  match byte_at pkt_data (UDP_LEN + 1) with
  | inl e => inl e
  | inr len_words =>
      let gsmtap_len := Z.to_nat (len_words * 4) in
      let header_end := (gsmtap_len + UDP_LEN)%nat in
      let gsmtap_hdr := slice pkt_data UDP_LEN header_end in
      match byte_at gsmtap_hdr 2 with
      | inl e => inl e
      | inr typ =>
          if negb (typ =? TYPE_LTE_NAS) then inr None
          else
            match byte_at gsmtap_hdr 4 with
            | inl e => inl e
            | inr flags =>
                let uplink := Z.shiftr (Z.land flags 64) 6 in
                let buf := skipn header_end pkt_data in
                match Nasparse.parse_nas_message parse_NASLTE_MO parse_NASLTE_MT
                        (Nasparse.Bytes buf) (Some (negb (uplink =? 0))) with
                | inl e => inl e
                | inr msg => inr (Some (fst (Nasparse.heur_ue_imsi_sent msg)))
                end
            end
      end
  end.

(** The loop of [process_pcap] from frame number [count] + 1 on: the
    numbers of the frames that are printed, and how the loop ends. *)
Fixpoint process_from (count : nat) (packets : list (list Z)) : list nat * ending :=
  match packets with
  | [] => ([], Done)
  | pkt_data :: rest =>
      let count := S count in
      match process_frame pkt_data with
      | inl e => ([], Aborted e)
      | inr triggered =>
          let (printed, e) := process_from count rest in
          match triggered with
          | Some true => (count :: printed, e)
          | _ => (printed, e)
          end
      end
  end.

(** The frames are those the capture reader yields. *)
Definition process_pcap (packets : list (list Z)) : list nat * ending :=
  process_from 0 packets.
End Process.

End PcapCheck.

(** ** extract.py with the decoder of nasparse.py *)

(** The decoder as [extract.main] calls it:
    [parse_nas_message(gsmtap[UDP][Raw].load[16:].hex())], direction not
    given, inside [try: ... except TypeError: pass].  ([TypeError] is the
    only exception the call raises on the text of bytes.) *)
Definition nas_of_payload (parse_NASLTE_MO parse_NASLTE_MT : list Z -> option Pycrate.emm_msg)
    (payload : list Z) : option Pycrate.emm_msg :=
  match Nasparse.parse_nas_message parse_NASLTE_MO parse_NASLTE_MT
          (Nasparse.Hex (Py.bytes_hex payload)) None with
  | inr msg => Some msg
  | inl _ => None
  end.

(** ** Vocabulary for the statements about the overwrite *)

Module Overwrite.

(** Byte [i] lies in the span of the match [m]. *)
Definition within (m : Yara.Match) (i : nat) : bool :=
  (Yara.offset m <=? i)%nat && (i <? Yara.offset m + Yara.length m)%nat.

(** Byte [i] lies in the span of one of the matches. *)
Definition covered (matches : list Yara.Match) (i : nat) : bool :=
  existsb (fun m => within m i) matches.

(** The span of every match lies inside a file of [size] bytes. *)
Definition in_bounds (size : nat) (matches : list Yara.Match) : Prop :=
  Forall (fun m => (Yara.offset m + Yara.length m <= size)%nat) matches.

(** [new] is [old] with some bytes replaced by the filler 0xAA. *)
Definition only_filled (old new : list Z) : Prop :=
  Forall2 (fun a b => b = a \/ b = 170) old new.

(** No string of the rule set occurs in the bytes. *)
Definition clean (rules : list Yara.compiled_rule) (bytes : list Z) : Prop :=
  Yara.all_matches rules bytes = [].

(** The files of [fs'] are those of [fs], each with some bytes replaced
    by the filler. *)
Definition redacted_from (fs fs' : gmap string (list Z)) : Prop :=
  forall p, match fs !! p, fs' !! p with
            | Some old, Some new => only_filled old new
            | None, None => True
            | _, _ => False
            end.


End Overwrite.

(** ** Frames for the worked examples of pcap_check.py *)

Module Frames.

(** 28 bytes of IP and UDP headers, a GSMTAP header of four words with
    the type LTE NAS and the direction bit set, and a payload. *)
Definition nas_frame : list Z :=
  repeat 0 29 ++ [4; 0x12; 0; 0x40] ++ repeat 0 12 ++ [0x07; 0x41].

(** The same with another GSMTAP type. *)
Definition other_frame : list Z :=
  repeat 0 29 ++ [4; 0x05; 0; 0x40] ++ repeat 0 12 ++ [0x07; 0x41].

(** A frame that ends inside the UDP header. *)
Definition short_frame : list Z := repeat 0 20.

End Frames.

(** ** Reading an identity back *)

(** Modelled from the spec: the repository has no decoder of the value the
    encoder returns.  The digits are derived again from the nibble
    sequence of the value as the round-trip property words it: nibble 0 is
    the first digit, the high bit of nibble 1 is the parity of the length
    and its three low bits the kind, the other nibbles are the packed
    digits, two per byte, the filler dropped when the length is even. *)
Definition rederive_digits (v : Z) : option Pycrate.identity :=
  match Py.format_x v with
  | String first (String tp packed) =>
      match Py.hexval tp with
      | Some t =>
          if Nat.even (String.length packed) then
            let digits := Pycrate.swap_pairs packed in
            if 8 <=? t
            then Some (t - 8, String first digits)
            else Some (t, String first (substring 0 (String.length digits - 1) digits))
          else None
      | None => None
      end
  | _ => None
  end.

(** ** Collaborators and data for the worked examples *)

Module Scenario.
Import Pycrate.

(** A capture reader for the examples: the file is one packet, a GSMTAP
    header of 16 bytes followed by the bytes of the file. *)
Definition one_packet (bytes : list Z) : option (list Extract.packet) :=
  Some [Extract.UDPRaw (repeat 0 16 ++ bytes)].


Definition attach (i : identity) : emm_msg :=
  EMMAttachRequest {| EPSAttachType := 2; EPSID := Some (Pair i) |}.

(** A capture reader that cannot parse the file ([Scapy_Exception]). *)
Definition not_a_capture (bytes : list Z) : option (list Extract.packet) := None.

(** A decoder that reads the same attach request in every payload. *)
Definition always (i : identity) (payload : list Z) : option emm_msg :=
  Some (attach i).


(** The identity element of the subscriber 001010123456789 as it is on the
    wire: first digit and type with parity, then the packed digits. *)
Definition imsi_octets : list Z := [0x09; 0x10; 0x10; 0x10; 0x32; 0x54; 0x76; 0x98].

(** A file of 64 bytes with an identity element of 8 bytes at offset 24. *)
Definition trace_with (octets : list Z) : list Z :=
  [0x8d; 0x42; 0xe1; 0x5b; 0x07; 0xc9; 0x3a; 0x6f; 0xd2; 0x1e; 0x84; 0xb7;
   0x55; 0x2c; 0xf0; 0x63; 0x9a; 0x0b; 0x7e; 0xc4; 0x31; 0xa8; 0x5d; 0xe6]
  ++ octets ++
  [0x4f; 0xb2; 0x18; 0xd7; 0x6a; 0x03; 0x95; 0xec; 0x71; 0x2f; 0xc8; 0x5a;
   0xbe; 0x04; 0x97; 0x3d; 0xe0; 0x66; 0x1b; 0xa3; 0x7c; 0xd9; 0x48; 0xf5;
   0x22; 0x8e; 0x53; 0xc1; 0x0d; 0xb6; 0x79; 0xea].

Definition trace64 : list Z := trace_with imsi_octets.

(** Two small files for the rule of the identity (1, "24"), whose strings
    are [21f4], [??e?], [??d?] and [01??a?]: in the first the overwrite
    of the match of [01??a?] at offset 1 creates a match at offset 0; the
    second holds the literal octets. *)
Definition two_files : gmap string (list Z) :=
  {[ "a.pcap" := [0x01; 0x01; 0x00; 0xa0]; "b.pcap" := [0x07; 0x21; 0xf4; 0x09] ]}.

(** Two rules whose strings overlap on a haystack of four bytes, as
    written and as compiled. *)
Definition overlap_needle : list Yara.rule :=
  [ {| Yara.rule_name := "mobile_id_type3";
       Yara.rule_strings := [("$ident3", "23f8"); ("$shift1", "??f?")] |};
    {| Yara.rule_name := "mobile_id_type1";
       Yara.rule_strings := [("$ident1", "21f4"); ("$shift3", "01??a?")] |} ].

Definition overlap_rules : list Yara.compiled_rule :=
  [ {| Yara.crule_name := "mobile_id_type3";
       Yara.crule_patterns :=
         [ ("$ident3", [(Yara.Lit 2, Yara.Lit 3); (Yara.Lit 15, Yara.Lit 8)]);
           ("$shift1", [(Yara.Wild, Yara.Wild); (Yara.Lit 15, Yara.Wild)]) ] |};
    {| Yara.crule_name := "mobile_id_type1";
       Yara.crule_patterns :=
         [ ("$ident1", [(Yara.Lit 2, Yara.Lit 1); (Yara.Lit 15, Yara.Lit 4)]);
           ("$shift3", [(Yara.Lit 0, Yara.Lit 1); (Yara.Wild, Yara.Wild);
                        (Yara.Lit 10, Yara.Wild)]) ] |} ].

Definition overlap_trace : list Z := [0x01; 0x21; 0xf4; 0xa0].

(** The rule of the identity (1, "24"), as written and as compiled. *)
Definition needle_24 : list Yara.rule :=
  [ {| Yara.rule_name := "mobile_id_type1";
       Yara.rule_strings := [ ("$ident1", "21f4"); ("$shift1", "??e?");
                              ("$shift2", "??d?"); ("$shift3", "01??a?") ] |} ].

Definition rules_24 : list Yara.compiled_rule :=
  [ {| Yara.crule_name := "mobile_id_type1";
       Yara.crule_patterns :=
         [ ("$ident1", [(Yara.Lit 2, Yara.Lit 1); (Yara.Lit 15, Yara.Lit 4)]);
           ("$shift1", [(Yara.Wild, Yara.Wild); (Yara.Lit 14, Yara.Wild)]);
           ("$shift2", [(Yara.Wild, Yara.Wild); (Yara.Lit 13, Yara.Wild)]);
           ("$shift3", [(Yara.Lit 0, Yara.Lit 1); (Yara.Wild, Yara.Wild);
                        (Yara.Lit 10, Yara.Wild)]) ] |} ].

End Scenario.

(** * Properties *)

Import Pycrate Redact.

(** ** The disclosure heuristic *)

Section Heuristic.
Import Extract.

Lemma redacted_marker_text : redacted_marker = "10".
Proof. reflexivity. Qed.

Lemma check_identity_triggered (d : option decoded) (i : identity) :
  check_identity d = inr (true, Ident i) <-> d = Some (Pair i) /\ snd i <> redacted_marker.
Proof.
  unfold check_identity. destruct d as [[[t s]|]|].
  - destruct (String.eqb_spec s redacted_marker) as [E|E]; split.
    + discriminate.
    + intros [H1 H2]. inversion H1; subst. simpl in H2. congruence.
    + intros H. inversion H; subst. auto.
    + intros [H1 _]. inversion H1; subst. reflexivity.
  - split; [discriminate | intros [H _]; discriminate].
  - split; [discriminate | intros [H _]; discriminate].
Qed.

Lemma check_identity_payload (d : option decoded) (m : message) :
  check_identity d = inr (true, m) -> exists i, m = Ident i.
Proof.
  unfold check_identity. destruct d as [[[t s]|]|]; try discriminate.
  destruct (String.eqb s redacted_marker); [discriminate|].
  intros H. inversion H. eauto.
Qed.

Lemma check_identity_marker (t : Z) :
  check_identity (Some (Pair (t, "10"))) = inr (false, Text "This was previously redacted.").
Proof. reflexivity. Qed.

Lemma check_identity_raises (d : option decoded) (e : exn) :
  check_identity d = inl e <-> d = Some NotPair /\ e = ValueError.
Proof.
  unfold check_identity. destruct d as [[[t s]|]|].
  - destruct (String.eqb s redacted_marker); split;
      try discriminate; intros [H _]; discriminate.
  - split; [intros H; inversion H; auto | intros [_ ->]; reflexivity].
  - split; [discriminate | intros [H _]; discriminate].
Qed.

(** The identity element the heuristic decodes, if it decodes one. *)
Lemma heur_checks (msg : emm_msg) :
  (exists d, heur_ue_id_sent msg = check_identity d)
  \/ heur_ue_id_sent msg = inr (false, NoMessage).
Proof.
  destruct msg as [a|p|s|]; cbn.
  - destruct (EPSAttachType a =? EPS_IMSI_ATTACH); eauto.
  - destruct p as [a|s|]; cbn; auto.
    destruct (EPSAttachType a =? EPS_IMSI_ATTACH); eauto.
  - eauto.
  - auto.
Qed.


(** The heuristic raises nothing but the [ValueError] of the unpacking. *)
Lemma heur_raises (msg : emm_msg) (e : exn) :
  heur_ue_id_sent msg = inl e -> e = ValueError.
Proof.
  intros H. destruct (heur_checks msg) as [[d E]|E]; rewrite E in H; [|discriminate].
  apply check_identity_raises in H. tauto.
Qed.

Lemma on_packet_found parse (p : packet) (i : identity) :
  on_packet parse p = inr (Some i)
  <-> exists load msg, p = UDPRaw load /\ parse (skipn 16 load) = Some msg
                       /\ heur_ue_id_sent msg = inr (true, Ident i).
Proof.
  unfold on_packet. destruct p as [|load]; cbn [udp_raw bind raise ret].
  - split; [discriminate | intros [l [m [H _]]]; discriminate].
  - destruct (parse (skipn 16 load)) as [msg|] eqn:Ep.
    + destruct (heur_ue_id_sent msg) as [e|[[|] [| |j]]] eqn:Eh; cbn [bind ret]; split;
        try discriminate;
        try (intros [l [m [Hl [Hp Hh]]]]; inversion Hl; subst l; rewrite Ep in Hp;
             inversion Hp; subst m; rewrite Eh in Hh; inversion Hh; subst; reflexivity).
      intros H. inversion H; subst. eauto.
    + split; [discriminate|].
      intros [l [m [Hl [Hp _]]]]. inversion Hl; subst l. congruence.
Qed.

Lemma main_cons parse (p : packet) (ps : list packet) (idents : list identity) :
  Extract.main parse (p :: ps) = inr idents
  <-> exists found rest,
        on_packet parse p = inr found /\ Extract.main parse ps = inr rest
        /\ idents = match found with Some i => i :: rest | None => rest end.
Proof.
  cbn [Extract.main]. destruct (on_packet parse p) as [e|found]; cbn [bind].
  - split; [discriminate | intros [f [r [H _]]]; discriminate].
  - destruct (Extract.main parse ps) as [e|rest]; cbn [bind ret].
    + split; [discriminate | intros [f [r [_ [H _]]]]; discriminate].
    + split.
      * intros H. inversion H. eauto.
      * intros [f [r [Hf [Hr ->]]]]. inversion Hf; inversion Hr; subst. reflexivity.
Qed.


End Heuristic.

(** C3, as stated, fails twice.  An attach request of type 2 whose identity
    element decodes to the marker ["10"] returns no identity although the
    element decoded; and an attach request of type 2 that carries an IMEI
    returns an identity whose kind is 3, not the permanent subscriber
    identity. *)
Lemma C3_counterexample :
  ~ ((exists i, Extract.heur_ue_id_sent
                  (EMMAttachRequest {| EPSAttachType := 2; EPSID := Some (Pair (1, "10")) |})
                = inr (true, Extract.Ident i))
     <-> EPSAttachType {| EPSAttachType := 2; EPSID := Some (Pair (1, "10")) |} = 2
         /\ EPSID {| EPSAttachType := 2; EPSID := Some (Pair (1, "10")) |} <> None)
  /\ ~ (forall t i,
          Extract.heur_ue_id_sent
            (EMMAttachRequest
               {| EPSAttachType := 2; EPSID := Some (Pair (3, "356938035643809")) |})
          = inr (true, Extract.Ident (t, i)) -> t = IDTYPE_IMSI).
Proof.
  split.
  - intros [_ H]. destruct H as [i H]; [split; [reflexivity | discriminate]|].
    cbn in H. discriminate.
  - intros H. specialize (H 3 "356938035643809" eq_refl). discriminate.
Qed.

(** C3 (amended): for an attach request the heuristic returns an identity
    exactly when the attach type is 2, the identity element decodes to a
    pair of a type code and digits, and the digits are not the marker
    ["10"]; what it returns is the decoded pair, kind included; when the
    attach type differs or the element does not decode it returns
    [(False, None)]; and whenever it triggers, what it returns is an
    identity.  The last part is about the element that decodes to
    something else than a pair: there, and only there, the heuristic
    raises, the [ValueError] of the unpacking. *)
Theorem C3_attach_request_detection (a : attach_request) :
  (forall i : identity,
      Extract.heur_ue_id_sent (EMMAttachRequest a) = inr (true, Extract.Ident i)
      <-> EPSAttachType a = 2 /\ EPSID a = Some (Pair i) /\ snd i <> "10")
  /\ (EPSAttachType a <> 2 \/ EPSID a = None ->
      Extract.heur_ue_id_sent (EMMAttachRequest a) = inr (false, Extract.NoMessage))
  /\ (forall m, Extract.heur_ue_id_sent (EMMAttachRequest a) = inr (true, m) ->
      exists i, m = Extract.Ident i /\ EPSID a = Some (Pair i))
  /\ (forall e, Extract.heur_ue_id_sent (EMMAttachRequest a) = inl e
      <-> EPSAttachType a = 2 /\ EPSID a = Some NotPair /\ e = ValueError).
Proof.
  cbn. unfold Extract.EPS_IMSI_ATTACH.
  destruct (Z.eqb_spec (EPSAttachType a) 2) as [E|E].
  - split; [|split; [|split]].
    + intros i. rewrite check_identity_triggered, redacted_marker_text. tauto.
    + intros [H|H]; [contradiction | rewrite H; reflexivity].
    + intros m H. destruct (check_identity_payload _ _ H) as [i ->].
      exists i. split; [reflexivity|]. apply check_identity_triggered in H. tauto.
    + intros e. rewrite check_identity_raises. tauto.
  - split; [|split; [|split]].
    + intros i. split; [discriminate | tauto].
    + reflexivity.
    + discriminate.
    + intros e. split; [discriminate | tauto].
Qed.







(** ** Texts and hexadecimal numbers *)

Lemma string_pair_ind (P : string -> Prop) :
  P "" ->
  (forall a, P (String a "")) ->
  (forall a b r, P r -> P (String a (String b r))) ->
  forall s, P s.
Proof.
  intros H0 H1 H2. fix IH 1. intros [|a [|b r]].
  - exact H0.
  - apply H1.
  - apply H2. apply IH.
Qed.

Lemma append_cons (c : ascii) (s1 s2 : string) :
  String c s1 +:+ s2 = String c (s1 +:+ s2).
Proof. reflexivity. Qed.

Lemma append_nil (s : string) : "" +:+ s = s.
Proof. reflexivity. Qed.

Lemma length_append (s1 s2 : string) :
  String.length (s1 +:+ s2) = (String.length s1 + String.length s2)%nat.
Proof. induction s1 as [|c s1 IH]; simpl; [reflexivity | now f_equal]. Qed.

Lemma all_chars_append p (s1 s2 : string) :
  Py.all_chars p (s1 +:+ s2) = Py.all_chars p s1 && Py.all_chars p s2.
Proof.
  induction s1 as [|c s1 IH]; simpl; [reflexivity|].
  now rewrite IH, andb_assoc.
Qed.

Lemma all_chars_weaken (p q : ascii -> bool) (s : string) :
  (forall c, p c = true -> q c = true) ->
  Py.all_chars p s = true -> Py.all_chars q s = true.
Proof.
  intros Hpq. induction s as [|c s IH]; cbn; [reflexivity|].
  rewrite !andb_true_iff. intros [H1 H2]. auto.
Qed.

Lemma code_range (c : ascii) : 0 <= Py.code c < 256.
Proof.
  unfold Py.code. pose proof (nat_ascii_bounded c). lia.
Qed.

Lemma hexval_range (c : ascii) (d : Z) : Py.hexval c = Some d -> 0 <= d < 16.
Proof.
  unfold Py.hexval.
  repeat match goal with
         | |- context [if ?b then _ else _] => destruct b eqn:?
         end; intros H; inversion H; subst; lia.
Qed.

Lemma hexval_decimal (c : ascii) :
  Py.is_decimal c = true -> Py.hexval c = Some (Py.code c - 48).
Proof. unfold Py.is_decimal, Py.hexval. intros ->. reflexivity. Qed.

Lemma decimal_is_hex (c : ascii) : Py.is_decimal c = true -> Py.is_hex c = true.
Proof. intros H. unfold Py.is_hex. now rewrite hexval_decimal. Qed.

Lemma hexchar_is_hex (n : Z) : 0 <= n < 16 -> Py.is_hex (Py.hexchar n) = true.
Proof.
  intros H. rewrite <- (Z2Nat.id n) by lia.
  assert (Hk : (Z.to_nat n < 16)%nat) by lia.
  revert Hk. generalize (Z.to_nat n). intros k Hk.
  do 16 (destruct k as [|k]; [reflexivity|]). lia.
Qed.

(** [hex_digits] reads a text of hexadecimal digits in base 16. *)
Lemma hex_digits_value (s : string) (acc : Z) :
  Py.all_chars Py.is_hex s = true ->
  exists r, Py.hex_digits s acc = Some (acc * 16 ^ Z.of_nat (String.length s) + r)
            /\ 0 <= r < 16 ^ Z.of_nat (String.length s).
Proof.
  revert acc. induction s as [|c s IH]; intros acc; cbn [Py.all_chars Py.hex_digits String.length].
  - intros _. exists 0. split; [f_equal; cbn; lia | cbn; lia].
  - rewrite andb_true_iff. unfold Py.is_hex at 1. intros [Hc Hs].
    destruct (Py.hexval c) as [d|] eqn:E; [|discriminate].
    apply hexval_range in E.
    destruct (IH (16 * acc + d) Hs) as [r [Hr Hb]].
    rewrite Nat2Z.inj_succ, Z.pow_succ_r by lia.
    exists (d * 16 ^ Z.of_nat (String.length s) + r). split.
    + rewrite Hr. f_equal. ring.
    + nia.
Qed.

Lemma int16_value (c : ascii) (s : string) :
  Py.all_chars Py.is_hex (String c s) = true ->
  exists d r, Py.hexval c = Some d
    /\ Py.int16 (String c s) = inr (d * 16 ^ Z.of_nat (String.length s) + r)
    /\ 0 <= r < 16 ^ Z.of_nat (String.length s).
Proof.
  intros H. pose proof H as H'. cbn in H'. rewrite andb_true_iff in H'.
  destruct H' as [Hc Hs]. unfold Py.is_hex in Hc.
  destruct (Py.hexval c) as [d|] eqn:E; [|discriminate].
  destruct (hex_digits_value s (16 * 0 + d) Hs) as [r [Hr Hb]].
  exists d, r. split; [reflexivity|]. split; [|exact Hb].
  unfold Py.int16. cbn [Py.hex_digits]. rewrite E, Hr. unfold ret. f_equal; ring.
Qed.

Lemma unhexlify_ok (s : string) :
  Py.all_chars Py.is_hex s = true ->
  Nat.even (String.length s) = true ->
  exists bs, Py.unhexlify s = inr bs
             /\ (2 * List.length bs = String.length s)%nat
             /\ Forall Py.is_byte bs.
Proof.
  induction s as [| a | a b r IH] using string_pair_ind.
  - intros _ _. exists []. repeat split. constructor.
  - intros _ H. discriminate.
  - cbn [Py.all_chars String.length Py.unhexlify]. rewrite !andb_true_iff.
    unfold Py.is_hex at 1 2. intros [Ha [Hb Hr]] Hev.
    destruct (Py.hexval a) as [h|] eqn:Eh; [|discriminate].
    destruct (Py.hexval b) as [l|] eqn:El; [|discriminate].
    destruct (IH Hr Hev) as [bs [E [Hl Hf]]].
    exists ((16 * h + l) :: bs). rewrite E. cbn. repeat split.
    + lia.
    + constructor; [|exact Hf]. apply hexval_range in Eh, El. unfold Py.is_byte. lia.
Qed.

Lemma bytes_hex_ok (bs : list Z) :
  Forall Py.is_byte bs ->
  Py.all_chars Py.is_hex (Py.bytes_hex bs) = true
  /\ String.length (Py.bytes_hex bs) = (2 * List.length bs)%nat.
Proof.
  induction 1 as [|b bs Hb _ [IH1 IH2]]; cbn; [split; reflexivity|].
  unfold Py.is_byte in Hb.
  rewrite !hexchar_is_hex, IH1, IH2.
  - split; [reflexivity | lia].
  - apply Z.mod_pos_bound. lia.
  - split; [apply Z.div_pos; lia | apply Z.div_lt_upper_bound; lia].
Qed.

Lemma swap_pairs_all_chars p (s : string) :
  Py.all_chars p (swap_pairs s) = Py.all_chars p s.
Proof.
  induction s as [| a | a b r IH] using string_pair_ind; cbn; try reflexivity.
  rewrite IH. destruct (p a), (p b); reflexivity.
Qed.

Lemma swap_pairs_length (s : string) :
  String.length (swap_pairs s) = String.length s.
Proof.
  induction s as [| a | a b r IH] using string_pair_ind; cbn; try reflexivity.
  now rewrite IH.
Qed.

(** The BCD packing of a text of decimal digits: one byte for every two
    digits, rounded up. *)
Lemma encode_bcd_ok (dig : string) :
  Py.all_chars Py.is_decimal dig = true ->
  exists bs, encode_bcd dig = inr bs
             /\ List.length bs = Nat.div2 (S (String.length dig))
             /\ Forall Py.is_byte bs.
Proof.
  intros Hd. apply (all_chars_weaken _ _ _ decimal_is_hex) in Hd.
  unfold encode_bcd.
  destruct (Nat.odd (String.length dig)) eqn:Eo.
  - destruct (unhexlify_ok (swap_pairs (dig +:+ "F"))) as [bs [E [Hl Hf]]].
    + rewrite swap_pairs_all_chars, all_chars_append, Hd. reflexivity.
    + rewrite swap_pairs_length, length_append. cbn [String.length].
      rewrite Nat.add_1_r, Nat.even_succ. exact Eo.
    + exists bs. split; [exact E|]. split; [|exact Hf].
      rewrite swap_pairs_length, length_append in Hl. cbn [String.length] in Hl.
      apply Nat.odd_spec in Eo. destruct Eo as [k Ek]. rewrite Ek in *.
      replace (S (2 * k + 1)) with (2 * S k)%nat by lia. rewrite Nat.div2_double. lia.
  - destruct (unhexlify_ok (swap_pairs dig)) as [bs [E [Hl Hf]]].
    + rewrite swap_pairs_all_chars. exact Hd.
    + rewrite swap_pairs_length. rewrite <- Nat.negb_odd, Eo. reflexivity.
    + exists bs. split; [exact E|]. split; [|exact Hf].
      rewrite swap_pairs_length in Hl.
      assert (Ev : Nat.even (String.length dig) = true)
        by (rewrite <- Nat.negb_odd, Eo; reflexivity).
      apply Nat.even_spec in Ev. destruct Ev as [k Ek]. rewrite Ek in *.
      rewrite Nat.div2_succ_double. lia.
Qed.

Lemma uint_text_decimal (d : Decimal.uint) :
  Py.all_chars Py.is_decimal (DecimalString.NilEmpty.string_of_uint d) = true.
Proof. induction d; cbn; auto. Qed.

(** [str] of a number that is not negative: decimal digits, at least
    one. *)
Lemma str_decimal (n : Z) :
  0 <= n -> Py.all_chars Py.is_decimal (Py.str n) = true /\ Py.str n <> "".
Proof.
  intros Hn. unfold Py.str.
  assert (E : exists d, Z.to_int n = Decimal.Pos d /\ d <> Decimal.Nil).
  { destruct n as [|p|p]; [| |lia].
    - exists (Decimal.D0 Decimal.Nil). split; [reflexivity | discriminate].
    - exists (Pos.to_uint p). split; [reflexivity|].
      intros H. apply (f_equal Pos.of_uint) in H.
      rewrite DecimalPos.Unsigned.of_to in H. discriminate. }
  destruct E as [d [-> Hd]]. cbn.
  destruct d; try contradiction; cbn; (split; [apply uint_text_decimal | discriminate]).
Qed.

(** ** The encoder *)

(** The text the encoder hands to [int]: the first digit, the type and
    parity, the packed digits. *)
Lemma identity_octets_text (idtype : Z) (c : ascii) (rest : string) :
  Py.all_chars Py.is_decimal rest = true ->
  exists bcd,
    identity_octets idtype (String c rest)
    = Py.int16 (String c (Py.str (idtype + 8 * (Z.of_nat (S (String.length rest)) mod 2))
                          +:+ Py.bytes_hex bcd))
    /\ List.length bcd = Nat.div2 (S (String.length rest))
    /\ Forall Py.is_byte bcd.
Proof.
  intros Hr. destruct (encode_bcd_ok rest Hr) as [bcd [E [Hl Hf]]].
  exists bcd. split; [|split; assumption].
  unfold identity_octets. cbn [Py.index0 Py.from1 bind ret String.length].
  rewrite E. reflexivity.
Qed.

(** C9, as stated, fails: a string of 16 digits, which is the length of
    an IMEISV, is encoded; so is an identity of a kind that is not
    supported, and so is a string with a hexadecimal letter. *)
Lemma C9_counterexample :
  identity_octets 1 "1234567890123456" = inr 0x1132547698103254f6
  /\ identity_octets 6 "123" = inr 0x11432
  /\ identity_octets 1 "3a5" = inr 0x395a.
Proof. repeat split; reflexivity. Qed.

Lemma identity_octets_ok (kind : Z) (c : ascii) (rest : string) :
  0 <= kind ->
  Py.all_chars Py.is_decimal (String c rest) = true ->
  exists v, identity_octets kind (String c rest) = inr v /\ 0 <= v.
Proof.
  intros Hk Hd. cbn in Hd. rewrite andb_true_iff in Hd. destruct Hd as [Hc Hr].
  destruct (identity_octets_text kind c rest Hr) as [bcd [E [_ Hf]]].
  rewrite E.
  destruct (int16_value c
              (Py.str (kind + 8 * (Z.of_nat (S (String.length rest)) mod 2))
               +:+ Py.bytes_hex bcd)) as [d [r [Hd [Hv Hb]]]].
  - cbn [Py.all_chars]. rewrite decimal_is_hex by exact Hc.
    rewrite all_chars_append, (proj1 (bytes_hex_ok bcd Hf)), andb_true_r. cbn.
    apply (all_chars_weaken _ _ _ decimal_is_hex).
    apply str_decimal.
    pose proof (Z.mod_pos_bound (Z.of_nat (S (String.length rest))) 2). lia.
  - rewrite Hv. eexists. split; [reflexivity|].
    apply hexval_range in Hd. nia.
Qed.

(** C9 (amended): the encoder checks neither the length of the digits nor
    the kind.  With a kind code that is not negative and a text of decimal
    digits it raises only when the text is empty, and then
    [IndexError]; every other such input is encoded, whatever its length
    and whatever the kind. *)
Theorem C9_encoder_errors (kind : Z) (digits : string) :
  0 <= kind ->
  Py.all_chars Py.is_decimal digits = true ->
  (digits = "" -> identity_octets kind digits = inl IndexError)
  /\ (digits <> "" -> exists v, identity_octets kind digits = inr v /\ 0 <= v).
Proof.
  intros Hk Hd. split.
  - intros ->. reflexivity.
  - intros Hne. destruct digits as [|c rest]; [contradiction|].
    now apply identity_octets_ok.
Qed.

Lemma C9_encoder_errors_witness :
  (("3512345678901234" : string) = "" -> identity_octets 3 "3512345678901234" = inl IndexError)
  /\ (("3512345678901234" : string) <> "" ->
      exists v, identity_octets 3 "3512345678901234" = inr v /\ 0 <= v).
Proof.
  apply (C9_encoder_errors 3 "3512345678901234"); [lia | reflexivity].
Defined.

Lemma int16_two (c t : ascii) (s : string) (d tv : Z) :
  Py.hexval c = Some d -> Py.hexval t = Some tv ->
  Py.all_chars Py.is_hex s = true ->
  exists r, Py.int16 (String c (String t s))
            = inr ((16 * d + tv) * 16 ^ Z.of_nat (String.length s) + r)
            /\ 0 <= r < 16 ^ Z.of_nat (String.length s).
Proof.
  intros Hc Ht Hs.
  destruct (hex_digits_value s (16 * (16 * 0 + d) + tv) Hs) as [r [Hr Hb]].
  exists r. split; [|exact Hb].
  unfold Py.int16. cbn [Py.hex_digits]. rewrite Hc, Ht, Hr. unfold ret. f_equal; ring.
Qed.

Lemma nibbles_of_value (d tv r : Z) (L : nat) :
  0 <= d < 16 -> 0 <= tv < 16 -> 0 <= r < 16 ^ Z.of_nat L ->
  Py.nibble_at (2 + L) ((16 * d + tv) * 16 ^ Z.of_nat L + r) 0 = d
  /\ Py.nibble_at (2 + L) ((16 * d + tv) * 16 ^ Z.of_nat L + r) 1 = tv
  /\ 0 <= (16 * d + tv) * 16 ^ Z.of_nat L + r < 2 ^ (4 * Z.of_nat (2 + L)).
Proof.
  intros Hd Ht Hr. unfold Py.nibble_at.
  replace (2 + L - 1 - 0)%nat with (S L) by lia.
  replace (2 + L - 1 - 1)%nat with L by lia.
  rewrite Nat2Z.inj_succ, Z.pow_succ_r by lia.
  set (X := 16 ^ Z.of_nat L) in *.
  assert (HX : 0 < X) by (apply Z.pow_pos_nonneg; lia).
  split; [|split].
  - rewrite <- (Z.div_unique ((16 * d + tv) * X + r) (16 * X) d (tv * X + r)).
    + apply Z.mod_small. exact Hd.
    + left. nia.
    + ring.
  - rewrite <- (Z.div_unique ((16 * d + tv) * X + r) X (16 * d + tv) r).
    + rewrite Z.add_comm, Z.mul_comm, Z.mod_add by lia. apply Z.mod_small. exact Ht.
    + left. exact Hr.
    + ring.
  - replace (4 * Z.of_nat (2 + L)) with (4 * (Z.of_nat L + 2)) by lia.
    rewrite Z.pow_mul_r by lia. change (2 ^ 4) with 16.
    rewrite Z.pow_add_r by lia. fold X. nia.
Qed.

(** The type and parity is one digit for kind 1, and for kind 3 when the
    number of digits is even. *)
Lemma type_and_parity_digit (kind : Z) (n : nat) :
  kind = 1 \/ (kind = 3 /\ Nat.even n = true) ->
  exists t, Py.str (kind + 8 * (Z.of_nat n mod 2)) = String t ""
            /\ Py.hexval t = Some (kind + 8 * (Z.of_nat n mod 2)).
Proof.
  intros [->|[-> Hev]].
  - assert (E : Z.of_nat n mod 2 = 0 \/ Z.of_nat n mod 2 = 1)
      by (pose proof (Z.mod_pos_bound (Z.of_nat n) 2); lia).
    destruct E as [->| ->]; eexists; split; reflexivity.
  - apply Nat.even_spec in Hev. destruct Hev as [k ->].
    replace (Z.of_nat (2 * k) mod 2) with 0
      by (symmetry; apply Z.mod_divide; [lia | exists (Z.of_nat k); lia]).
    eexists; split; reflexivity.
Qed.

(** C6, as stated, fails on the width: with two digits the packed second
    digit takes a whole byte, filler included, and the result has 16 bits,
    not 12. *)
Lemma C6_counterexample :
  identity_octets 1 "12" = inr 0x11f2
  /\ ~ (0x11f2 < 2 ^ (4 * (2 + Z.of_nat (String.length "12") - 1))).
Proof. split; [reflexivity | cbn; lia]. Qed.

(** C6 (amended): for kind 1, and for kind 3 with an even number of
    digits, the result read as [2 + 2 * (len / 2)] nibbles (the count
    includes the filler nibble that follows an odd number of packed
    digits) has the first digit as nibble 0 and [kind + 8 * (len mod 2)]
    as nibble 1, and it fits that width. *)
Theorem C6_encoder_nibbles (kind : Z) (c : ascii) (rest : string) :
  Py.all_chars Py.is_decimal (String c rest) = true ->
  kind = 1 \/ (kind = 3 /\ Nat.even (String.length (String c rest)) = true) ->
  exists v,
    identity_octets kind (String c rest) = inr v
    /\ Py.nibble_at (2 + 2 * (String.length (String c rest) / 2)) v 0 = Py.code c - 48
    /\ Py.nibble_at (2 + 2 * (String.length (String c rest) / 2)) v 1
       = kind + 8 * (Z.of_nat (String.length (String c rest)) mod 2)
    /\ 0 <= v < 2 ^ (4 * Z.of_nat (2 + 2 * (String.length (String c rest) / 2))).
Proof.
  cbn [Py.all_chars String.length]. rewrite andb_true_iff. intros [Hc Hr] Hk.
  destruct (identity_octets_text kind c rest Hr) as [bcd [E [Hl Hf]]].
  destruct (type_and_parity_digit kind (S (String.length rest)) Hk) as [t [Et Ht]].
  destruct (bytes_hex_ok bcd Hf) as [Hh HL].
  rewrite Et in E.
  change (String t "" +:+ Py.bytes_hex bcd) with (String t (Py.bytes_hex bcd)) in E.
  destruct (int16_two c t (Py.bytes_hex bcd) _ _ (hexval_decimal c Hc) Ht Hh)
    as [r [Hv Hb]].
  rewrite Hv in E. eexists. split; [exact E|].
  rewrite HL, Hl, Nat.div2_div in *.
  apply nibbles_of_value; [| |exact Hb].
  - unfold Py.is_decimal in Hc. rewrite andb_true_iff, !Z.leb_le in Hc. lia.
  - apply hexval_range in Ht. exact Ht.
Qed.

Lemma C6_encoder_nibbles_witness :
  exists v,
    identity_octets 1 "310150123456789" = inr v
    /\ Py.nibble_at (2 + 2 * (String.length "310150123456789" / 2)) v 0 = Py.code "3"%char - 48
    /\ Py.nibble_at (2 + 2 * (String.length "310150123456789" / 2)) v 1
       = 1 + 8 * (Z.of_nat (String.length "310150123456789") mod 2)
    /\ 0 <= v < 2 ^ (4 * Z.of_nat (2 + 2 * (String.length "310150123456789" / 2))).
Proof.
  apply (C6_encoder_nibbles 1 "3"%char "10150123456789"); [reflexivity | left; reflexivity].
Defined.

(** ** The shifted strings *)

Lemma substring_length (s : string) (n m : nat) :
  String.length (substring n m s) = Nat.min m (String.length s - n).
Proof.
  revert n m. induction s as [|c s IH]; intros [|n] [|m]; cbn [substring String.length];
    try reflexivity; try lia.
  - rewrite IH. lia.
  - rewrite IH. lia.
  - rewrite IH. lia.
Qed.

Lemma get_append_l (s1 s2 : string) (i : nat) :
  (i < String.length s1)%nat -> String.get i (s1 +:+ s2) = String.get i s1.
Proof. intros H. symmetry. now apply append_correct1. Qed.

Lemma get_append_r (s1 s2 : string) (i : nat) :
  String.get (String.length s1 + i) (s1 +:+ s2) = String.get i s2.
Proof. rewrite Nat.add_comm. symmetry. apply append_correct2. Qed.

Lemma get_slice_to_last (lo i : nat) (s : string) :
  (lo <= i)%nat -> (i < String.length s - 1)%nat ->
  String.get (i - lo) (Py.slice_to_last lo s) = String.get i s.
Proof.
  intros H1 H2. unfold Py.slice_to_last.
  rewrite substring_correct1 by lia. f_equal. lia.
Qed.

Lemma slice_to_last_length (lo : nat) (s : string) :
  String.length (Py.slice_to_last lo s) = (String.length s - 1 - lo)%nat.
Proof. unfold Py.slice_to_last. rewrite substring_length. lia. Qed.

Lemma shift12_shape (s : string) :
  (3 <= String.length s)%nat -> boundary_wild s (shift12 s).
Proof.
  intros H. unfold boundary_wild, shift12. split.
  - rewrite !append_cons, append_nil. cbn [String.length].
    rewrite length_append, slice_to_last_length. cbn [String.length]. lia.
  - intros i Hi. rewrite !append_cons, append_nil.
    destruct i as [|[|i]]; try reflexivity. cbn [String.get Nat.ltb Nat.leb orb].
    destruct (Nat.eqb_spec (S (S i)) (String.length s - 1)) as [E|E].
    + replace i with (String.length (Py.slice_to_last 2 s) + 0)%nat
        by (rewrite slice_to_last_length; lia).
      rewrite get_append_r. reflexivity.
    + rewrite get_append_l by (rewrite slice_to_last_length; lia).
      replace i with (S (S i) - 2)%nat at 1 by lia.
      apply get_slice_to_last; lia.
Qed.

Lemma shift3_shape (s : string) :
  (4 <= String.length s)%nat ->
  exists p, shift3_pattern s = inr p /\ zero_prefixed s p.
Proof.
  intros H. unfold shift3_pattern. destruct s as [|c s]; [cbn in H; lia|].
  cbn [Py.index0 bind ret]. eexists. split; [reflexivity|].
  set (full := String c s) in *. unfold zero_prefixed.
  rewrite !append_cons, !append_nil.
  cbn [String.length String.get]. split; [|split; [reflexivity|]].
  - rewrite length_append, slice_to_last_length. cbn [String.length]. lia.
  - intros i Hi.
    destruct (Nat.eqb_spec i (String.length full - 1)) as [E|E].
    + rewrite orb_true_r.
      destruct i as [|[|[|j]]]; try lia. cbn [String.get].
      replace j with (String.length (Py.slice_to_last 3 full) + 0)%nat
        by (rewrite slice_to_last_length; lia).
      rewrite get_append_r. reflexivity.
    + rewrite orb_false_r.
      destruct i as [|[|[|j]]]; try reflexivity. cbn [String.get Nat.eqb orb].
      rewrite get_append_l by (rewrite slice_to_last_length; lia).
      replace j with (S (S (S j)) - 3)%nat at 1 by lia.
      apply get_slice_to_last; lia.
Qed.

Lemma hex_uint_text_literal (d : Hexadecimal.uint) :
  Py.all_chars Yara.not_wildcard (HexadecimalString.NilEmpty.string_of_uint d) = true.
Proof. induction d; cbn; auto. Qed.

(** The text of a number has no wildcard: every place of a shifted string
    that is not marked is a literal nibble. *)
Lemma format_x_literal (n : Z) : Py.all_chars Yara.not_wildcard (Py.format_x n) = true.
Proof.
  unfold Py.format_x.
  destruct (Z.to_hex_int n) as [d|d]; cbn;
    destruct d; try reflexivity; apply hex_uint_text_literal.
Qed.

(** C5, as stated, fails for the shift by 3: the string is one nibble
    longer than the shifted value, and its first two nibbles are a literal
    0 and the literal first nibble of the shifted value, not wildcards. *)
Lemma C5_counterexample :
  identity_octets 1 "310150123456789" = inr 0x3901511032547698
  /\ Py.format_x (Z.shiftl 0x3901511032547698 3) = "1c80a888192a3b4c0"
  /\ yara_rules 1 "310150123456789"
     = inr {| Yara.rule_name := "mobile_id_type1";
              Yara.rule_strings :=
                [ ("$ident1", "3901511032547698");
                  ("$shift1", "??02a22064a8ed3?");
                  ("$shift2", "??054440c951da6?");
                  ("$shift3", "01??0a888192a3b4c?") ] |}
  /\ ~ boundary_wild "1c80a888192a3b4c0" "01??0a888192a3b4c?".
Proof.
  repeat split; try reflexivity.
  intros [H _]. discriminate H.
Qed.

(** C5 (amended): an identity yields four strings, the literal text of
    the value and one for each shift.  For the shifts by 1 and 2 the string
    is the text of the shifted value with its first two nibbles and its
    last nibble replaced by wildcards.  For the shift by 3 the string is a
    literal 0 followed by the text of the shifted value with its second,
    third and last nibble replaced by wildcards, the first nibble staying
    literal.  The nibbles that are not replaced are literal. *)
Theorem C5_shifted_patterns (typ : Z) (ident : string) (rule : Yara.rule) :
  yara_rules typ ident = inr rule ->
  exists v p1 p2 p3,
    identity_octets typ ident = inr v
    /\ Yara.rule_strings rule
       = [ ("$ident" +:+ Py.str typ, Py.format_x v);
           ("$shift1", p1); ("$shift2", p2); ("$shift3", p3) ]
    /\ ((3 <= String.length (Py.format_x (Z.shiftl v 1)))%nat ->
        boundary_wild (Py.format_x (Z.shiftl v 1)) p1)
    /\ ((3 <= String.length (Py.format_x (Z.shiftl v 2)))%nat ->
        boundary_wild (Py.format_x (Z.shiftl v 2)) p2)
    /\ ((4 <= String.length (Py.format_x (Z.shiftl v 3)))%nat ->
        zero_prefixed (Py.format_x (Z.shiftl v 3)) p3)
    /\ (forall k, Py.all_chars Yara.not_wildcard (Py.format_x (Z.shiftl v k)) = true).
Proof.
  unfold yara_rules. intros H.
  destruct (identity_octets typ ident) as [e|v]; [discriminate|].
  cbn [bind] in H.
  destruct (shift3_pattern (Py.format_x (Z.shiftl v 3))) as [e|p3] eqn:E3; [discriminate|].
  cbn [bind ret] in H. inversion H; subst rule; clear H. cbn [Yara.rule_strings].
  exists v, (shift12 (Py.format_x (Z.shiftl v 1))), (shift12 (Py.format_x (Z.shiftl v 2))), p3.
  split; [reflexivity|]. split; [reflexivity|].
  split; [apply shift12_shape|]. split; [apply shift12_shape|].
  split; [|intros k; apply format_x_literal].
  intros H4. destruct (shift3_shape _ H4) as [p [Ep Hp]].
  rewrite E3 in Ep. inversion Ep; subst p. exact Hp.
Qed.

Lemma C5_shifted_patterns_witness :
  exists v p1 p2 p3,
    identity_octets 3 "3512345678901234" = inr v
    /\ [ ("$ident3", "3315325476981032f4");
         ("$shift1", "??2a64a8ed302065e?");
         ("$shift2", "??54c951da6040cbd?");
         ("$shift3", "01??a992a3b4c08197a?") ]
       = [ ("$ident" +:+ Py.str 3, Py.format_x v);
           ("$shift1", p1); ("$shift2", p2); ("$shift3", p3) ]
    /\ ((3 <= String.length (Py.format_x (Z.shiftl v 1)))%nat ->
        boundary_wild (Py.format_x (Z.shiftl v 1)) p1)
    /\ ((3 <= String.length (Py.format_x (Z.shiftl v 2)))%nat ->
        boundary_wild (Py.format_x (Z.shiftl v 2)) p2)
    /\ ((4 <= String.length (Py.format_x (Z.shiftl v 3)))%nat ->
        zero_prefixed (Py.format_x (Z.shiftl v 3)) p3)
    /\ (forall k, Py.all_chars Yara.not_wildcard (Py.format_x (Z.shiftl v k)) = true).
Proof.
  apply (C5_shifted_patterns 3 "3512345678901234"
           {| Yara.rule_name := "mobile_id_type3";
              Yara.rule_strings :=
                [ ("$ident3", "3315325476981032f4");
                  ("$shift1", "??2a64a8ed302065e?");
                  ("$shift2", "??54c951da6040cbd?");
                  ("$shift3", "01??a992a3b4c08197a?") ] |}).
  vm_compute. reflexivity.
Defined.

(** ** The stable sort *)

Section Sorting.
Context {A : Type} (key : A -> nat).

Lemma insert_by_perm (x : A) (l : list A) : Permutation (x :: l) (Py.insert_by key x l).
Proof.
  induction l as [|y l IH]; cbn; [reflexivity|].
  destruct (key x <=? key y)%nat; [reflexivity|].
  rewrite perm_swap. now apply perm_skip.
Qed.

Lemma sorted_perm (l : list A) : Permutation l (Py.sorted key l).
Proof.
  induction l as [|x l IH]; cbn; [reflexivity|].
  rewrite <- insert_by_perm. now apply perm_skip.
Qed.

Lemma insert_by_sorted (x : A) (l : list A) :
  StronglySorted (fun a b => key a <= key b)%nat l ->
  StronglySorted (fun a b => key a <= key b)%nat (Py.insert_by key x l).
Proof.
  induction 1 as [|y l Hs IH Hy]; cbn.
  - repeat constructor.
  - destruct (Nat.leb_spec (key x) (key y)) as [Hle|Hlt].
    + constructor; [constructor; assumption|].
      constructor; [exact Hle|].
      rewrite List.Forall_forall in *. intros z Hz. specialize (Hy z Hz). lia.
    + constructor; [exact IH|].
      rewrite List.Forall_forall in *. intros z Hz.
      apply (Permutation_in _ (Permutation_sym (insert_by_perm x l))) in Hz.
      destruct Hz as [<-|Hz]; [lia | auto].
Qed.

Lemma sorted_sorted (l : list A) :
  StronglySorted (fun a b => key a <= key b)%nat (Py.sorted key l).
Proof.
  induction l as [|x l IH]; cbn; [constructor | now apply insert_by_sorted].
Qed.

(** Insertion passes only elements of a smaller key: the elements of one
    key keep their order. *)
Lemma insert_by_stable (k : nat) (x : A) (l : list A) :
  List.filter (fun a => key a =? k)%nat (Py.insert_by key x l)
  = List.filter (fun a => key a =? k)%nat (x :: l).
Proof.
  induction l as [|y l IH]; [reflexivity|].
  cbn [Py.insert_by]. destruct (Nat.leb_spec (key x) (key y)) as [Hle|Hlt]; [reflexivity|].
  cbn [List.filter] in *. rewrite IH.
  destruct (Nat.eqb_spec (key x) k), (Nat.eqb_spec (key y) k); try reflexivity. lia.
Qed.

Lemma sorted_stable (k : nat) (l : list A) :
  List.filter (fun a => key a =? k)%nat (Py.sorted key l)
  = List.filter (fun a => key a =? k)%nat l.
Proof.
  induction l as [|x l IH]; [reflexivity|].
  cbn [Py.sorted fold_right]. rewrite insert_by_stable. cbn [List.filter].
  fold (Py.sorted key l). now rewrite IH.
Qed.

End Sorting.

(** ** The scan *)

Lemma find_from_spec (id : string) (pat : list Yara.byte_pattern) (hay : list Z)
    (off : nat) (m : Yara.Match) :
  In m (Yara.find_from id pat hay off)
  <-> exists o, (o < List.length hay)%nat
                /\ Yara.match_here pat (skipn o hay) = true
                /\ m = {| Yara.offset := off + o; Yara.length := List.length pat;
                          Yara.pattern := id |}.
Proof.
  revert off. induction hay as [|b hay IH]; intros off; cbn [Yara.find_from].
  - split; [intros [] | intros [o [H _]]; cbn in H; lia].
  - rewrite in_app_iff, IH. split.
    + intros [H|[o [Ho [Hm ->]]]].
      * destruct (Yara.match_here pat (b :: hay)) eqn:E; [|destruct H].
        destruct H as [<-|[]]. exists 0%nat. cbn [skipn List.length].
        rewrite Nat.add_0_r. repeat split; [lia | exact E].
      * exists (S o). cbn [skipn List.length]. rewrite Nat.add_succ_r.
        repeat split; [lia | exact Hm].
    + intros [[|o] [Ho [Hm ->]]]; cbn [skipn List.length] in *.
      * left. rewrite Hm, Nat.add_0_r. left. reflexivity.
      * right. exists o. rewrite Nat.add_succ_r. repeat split; [lia | exact Hm].
Qed.

(** The offsets of one string come in ascending order. *)
Lemma all_matches_spec (rules : list Yara.compiled_rule) (hay : list Z) (m : Yara.Match) :
  In m (Yara.all_matches rules hay) <-> Yara.occurrence rules hay m.
Proof.
  unfold Yara.all_matches, Yara.occurrence. rewrite in_flat_map. split.
  - intros [r [Hr H]]. apply in_flat_map in H. destruct H as [[id pat] [Hp H]].
    apply find_from_spec in H. destruct H as [o [Ho [Hm ->]]]. cbn in *.
    exists r, pat. repeat split; assumption.
  - intros [r [pat [Hr [Hp [Hl [Ho Hm]]]]]]. exists r. split; [exact Hr|].
    apply in_flat_map. exists (Yara.pattern m, pat). split; [exact Hp|].
    apply find_from_spec. exists (Yara.offset m). cbn. repeat split; try assumption.
    destruct m; cbn in *. now subst.
Qed.

Lemma rule_without_match (ps : list (string * list Yara.Match)) :
  Yara.rule_matches ps = false -> concat (map snd ps) = [].
Proof.
  unfold Yara.rule_matches. induction ps as [|[id ms] ps IH]; cbn; [reflexivity|].
  destruct ms; [|discriminate]. cbn. exact IH.
Qed.

(** What [matches_from] collects from the matching rules is every
    occurrence: a rule that does not match has none. *)
Lemma collect_matches_all (rules : list Yara.compiled_rule) (hay : list Z) :
  collect_matches (Yara.scan_bytes rules hay) = Yara.all_matches rules hay.
Proof.
  unfold collect_matches, Yara.scan_bytes, Yara.all_matches.
  induction rules as [|r rules IH]; [reflexivity|].
  cbn [map List.filter flat_map]. rewrite <- IH.
  assert (E : concat (map snd (Yara.scan_rule r hay))
              = flat_map (fun p => Yara.find_from (fst p) (snd p) hay 0%nat)
                         (Yara.crule_patterns r)).
  { unfold Yara.scan_rule. rewrite map_map. cbn [snd]. now rewrite flat_map_concat_map. }
  destruct (Yara.rule_matches (Yara.scan_rule r hay)) eqn:Em.
  - cbn [map concat]. now rewrite E.
  - apply rule_without_match in Em. rewrite <- E, Em. reflexivity.
Qed.

(** C7, as stated, fails on the ties: on the haystack [21 f4] the string
    [$shift1] of the rule of (3, "28") and the string [$ident1] of the rule
    of (1, "24") both match at offset 0, and they are returned in the order
    of the rules, whichever the identifiers: [$shift1] before [$ident1]
    when the rule of kind 3 is written first, the other way round when it
    is written second. *)
Lemma C7_counterexample :
  exists rA rB,
    yara_rules 3 "28" = inr rA /\ yara_rules 1 "24" = inr rB
    /\ (do results <- scan true [rA; rB] {[ "trace" := [0x21; 0xf4] ]} "trace";
        ret (matches_from results))
       = inr [ {| Yara.offset := 0; Yara.length := 2; Yara.pattern := "$shift1" |};
               {| Yara.offset := 0; Yara.length := 2; Yara.pattern := "$ident1" |} ]
    /\ (do results <- scan true [rB; rA] {[ "trace" := [0x21; 0xf4] ]} "trace";
        ret (matches_from results))
       = inr [ {| Yara.offset := 0; Yara.length := 2; Yara.pattern := "$ident1" |};
               {| Yara.offset := 0; Yara.length := 2; Yara.pattern := "$shift1" |} ]
    /\ String.ltb "$ident1" "$shift1" = true.
Proof.
  do 2 eexists. split; [vm_compute; reflexivity|]. split; [vm_compute; reflexivity|].
  repeat split; vm_compute; reflexivity.
Qed.

(** C7 (amended): for a rule set that compiles and a haystack that can be
    read, the list [matches_from] returns holds every occurrence of every
    string of the rule set, overlapping or not, each once; it is sorted by
    ascending offset; and matches at one offset keep the order of the rule
    set (rule by rule, string by string), on which the identifiers have no
    say. *)
Theorem C7_scan_reports_sorted (strict : bool)
    (needle : list Yara.rule) (rules : list Yara.compiled_rule)
    (fs : gmap string (list Z)) (haystack : string) (hay : list Z) :
  Yara.compile strict needle = inr rules ->
  fs !! haystack = Some hay ->
  exists results,
    scan strict needle fs haystack = inr results
    /\ Permutation (Yara.all_matches rules hay) (matches_from results)
    /\ (forall m, In m (matches_from results) <-> Yara.occurrence rules hay m)
    /\ StronglySorted (fun a b => Yara.offset a <= Yara.offset b)%nat (matches_from results)
    /\ (forall o, List.filter (fun m => Yara.offset m =? o)%nat (matches_from results)
                  = List.filter (fun m => Yara.offset m =? o)%nat (Yara.all_matches rules hay)).
Proof.
  intros Hc Hf. exists (Yara.scan_bytes rules hay).
  unfold scan. rewrite Hc. cbn [bind]. rewrite Hf. split; [reflexivity|].
  unfold matches_from. rewrite collect_matches_all.
  split; [apply sorted_perm|]. split; [|split].
  - intros m. rewrite <- all_matches_spec. split; intros H.
    + apply (Permutation_in _ (Permutation_sym (sorted_perm Yara.offset _))). exact H.
    + apply (Permutation_in _ (sorted_perm Yara.offset _)). exact H.
  - apply sorted_sorted.
  - intros o. apply sorted_stable.
Qed.

(** Two overlapping strings of two identities on one haystack. *)
Lemma C7_scan_reports_sorted_witness :
  exists results,
    scan true Scenario.overlap_needle {[ "trace" := Scenario.overlap_trace ]} "trace" = inr results
    /\ Permutation (Yara.all_matches Scenario.overlap_rules Scenario.overlap_trace)
                   (matches_from results)
    /\ (forall m, In m (matches_from results)
                  <-> Yara.occurrence Scenario.overlap_rules Scenario.overlap_trace m)
    /\ StronglySorted (fun a b => Yara.offset a <= Yara.offset b)%nat (matches_from results)
    /\ (forall o,
          List.filter (fun m => Yara.offset m =? o)%nat (matches_from results)
          = List.filter (fun m => Yara.offset m =? o)%nat
              (Yara.all_matches Scenario.overlap_rules Scenario.overlap_trace)).
Proof.
  apply C7_scan_reports_sorted; vm_compute; reflexivity.
Defined.

(** ** The run *)

Lemma scan_readable {strict : bool} (needle : list Yara.rule) (rules : list Yara.compiled_rule)
    (fs : gmap string (list Z)) (h : string) (bytes : list Z) :
  Yara.compile strict needle = inr rules -> fs !! h = Some bytes ->
  scan strict needle fs h = inr (Yara.scan_bytes rules bytes).
Proof. intros Hc Hf. unfold scan. rewrite Hc. cbn [bind]. now rewrite Hf. Qed.


(** The first loop ends without an exception only if every file could be
    opened. *)
Lemma collect_idents_readable
    (rdpcap : list Z -> option (list Extract.packet)) (parse : list Z -> option emm_msg)
    (fs : gmap string (list Z))
    (haystacks : list string) (acc idents : gset identity) :
  collect_idents rdpcap parse fs haystacks acc = inr idents ->
  forall h, In h haystacks -> is_Some (fs !! h).
Proof.
  revert acc. induction haystacks as [|h rest IH]; intros acc Hc h' Hin; [destruct Hin|].
  cbn [collect_idents] in Hc.
  destruct (identities_of rdpcap parse fs h) as [e|found] eqn:Ef; [discriminate|].
  cbn [bind] in Hc. destruct Hin as [<-|Hin]; [|eapply IH; eassumption].
  unfold identities_of in Ef. destruct (fs !! h); [eauto | discriminate].
Qed.



(** ** Rule names *)





Lemma collect_idents_nonempty
    (rdpcap : list Z -> option (list Extract.packet)) (parse : list Z -> option emm_msg)
    (fs : gmap string (list Z)) (haystacks : list string) (idents : gset identity)
    (i : identity) :
  collect_idents rdpcap parse fs haystacks ∅ = inr idents ->
  i ∈ idents -> haystacks <> [].
Proof.
  intros Hc Hi ->. cbn in Hc. inversion Hc; subst. set_solver.
Qed.

(** ** The text of the value *)

Ltac eval_hexval :=
  repeat match goal with
         | |- context [Py.hexval ?c] =>
             let v := eval vm_compute in (Py.hexval c) in
             change (Py.hexval c) with v
         end.

Lemma hex_digits_acc (d : Hexadecimal.uint) (acc : positive) :
  Py.hex_digits (HexadecimalString.NilEmpty.string_of_uint d) (Z.pos acc)
  = Some (Z.pos (Pos.of_hex_uint_acc d acc)).
Proof.
  revert acc. induction d; intros acc;
    cbn [HexadecimalString.NilEmpty.string_of_uint Py.hex_digits Pos.of_hex_uint_acc];
    try reflexivity; eval_hexval; cbv iota; rewrite <- IHd; f_equal; lia.
Qed.

(** [int(s, 16)] and the number the standard library reads in the same
    digits. *)
Lemma hex_digits_of_uint (d : Hexadecimal.uint) :
  Py.hex_digits (HexadecimalString.NilEmpty.string_of_uint d) 0
  = Some (Z.of_hex_uint d).
Proof.
  unfold Z.of_hex_uint.
  induction d;
    cbn [HexadecimalString.NilEmpty.string_of_uint Py.hex_digits Pos.of_hex_uint];
    try reflexivity; eval_hexval; cbv iota;
    try (exact IHd); apply hex_digits_acc.
Qed.

Lemma lower_hex_uint (s : string) :
  Py.all_chars Py.is_lower_hex s = true ->
  exists d, HexadecimalString.NilEmpty.string_of_uint d = s.
Proof.
  intros H.
  assert (E : exists d, HexadecimalString.NilEmpty.uint_of_string s = Some d).
  { induction s as [|c s IH]; [eexists; reflexivity|].
    cbn [Py.all_chars] in H. apply andb_true_iff in H. destruct H as [Hc Hs].
    destruct (IH Hs) as [d Hd]. cbn [HexadecimalString.NilEmpty.uint_of_string].
    rewrite Hd. clear - Hc.
    destruct c as [[] [] [] [] [] [] [] []]; try discriminate Hc; eexists; reflexivity. }
  destruct E as [d E]. exists d. now apply HexadecimalString.NilEmpty.sus.
Qed.

(** The text of a number has no leading zero: a text that starts with
    another digit is printed as it was read. *)
Lemma format_x_int16 (c : ascii) (s : string) :
  Py.all_chars Py.is_lower_hex (String c s) = true -> c <> "0"%char ->
  exists v, Py.int16 (String c s) = inr v /\ Py.format_x v = String c s /\ 0 <= v.
Proof.
  intros H Hc. destruct (lower_hex_uint _ H) as [d Hd].
  exists (Z.of_hex_uint d). split; [|split].
  - unfold Py.int16. rewrite <- Hd, hex_digits_of_uint. reflexivity.
  - unfold Py.format_x.
    change (Z.of_hex_uint d) with (Z.of_hex_int (Hexadecimal.Pos d)).
    rewrite HexadecimalZ.to_of. rewrite <- Hd.
    destruct d; cbn in Hd; try discriminate Hd; try reflexivity.
    inversion Hd. congruence.
  - unfold Z.of_hex_uint. lia.
Qed.

(** Read with a leading zero, the number is the same and the zero is not
    printed. *)
Lemma int16_leading_zero (s : string) :
  s <> "" -> Py.int16 (String "0" s) = Py.int16 s.
Proof. intros H. destruct s; [contradiction | reflexivity]. Qed.

Lemma decimal_is_lower_hex (c : ascii) :
  Py.is_decimal c = true -> Py.is_lower_hex c = true.
Proof. unfold Py.is_lower_hex. intros ->. reflexivity. Qed.

Lemma hexchar_is_lower_hex (n : Z) : 0 <= n < 16 -> Py.is_lower_hex (Py.hexchar n) = true.
Proof.
  intros H. rewrite <- (Z2Nat.id n) by lia.
  assert (Hk : (Z.to_nat n < 16)%nat) by lia.
  revert Hk. generalize (Z.to_nat n). intros k Hk.
  do 16 (destruct k as [|k]; [reflexivity|]). lia.
Qed.

Lemma bytes_hex_lower (bs : list Z) :
  Forall Py.is_byte bs -> Py.all_chars Py.is_lower_hex (Py.bytes_hex bs) = true.
Proof.
  induction 1 as [|b bs Hb _ IH]; cbn; [reflexivity|].
  unfold Py.is_byte in Hb. rewrite !hexchar_is_lower_hex, IH; [reflexivity| |].
  - apply Z.mod_pos_bound. lia.
  - split; [apply Z.div_pos; lia | apply Z.div_lt_upper_bound; lia].
Qed.

Lemma format_x_nonempty (n : Z) : Py.format_x n <> "".
Proof.
  unfold Py.format_x. destruct (Z.to_hex_int n) as [d|d]; cbn; [|discriminate].
  destruct d; discriminate.
Qed.

Lemma odd_text_not_pattern (s : string) :
  Nat.odd (String.length s) = true -> Yara.parse_pattern s = None.
Proof.
  induction s as [| a | a b r IH] using string_pair_ind; cbn [String.length Yara.parse_pattern].
  - discriminate.
  - reflexivity.
  - intros H. rewrite IH by exact H.
    destruct (Yara.parse_nibble a), (Yara.parse_nibble b); reflexivity.
Qed.

Lemma compile_rule_error (r : Yara.rule) (e : exn) :
  Yara.compile_rule r = inl e -> e = CompileError.
Proof.
  unfold Yara.compile_rule.
  assert (G : forall l e, mapM Yara.compile_string l = inl e -> e = CompileError).
  { induction l as [|s l IH]; intros e0; cbn [mapM]; [discriminate|].
    unfold Yara.compile_string at 1.
    destruct (Yara.parse_pattern (snd s)) as [[|p ps]|]; cbn [bind raise];
      try (intros H; inversion H; reflexivity).
    destruct (mapM Yara.compile_string l) as [e1|ps'] eqn:E; cbn [bind ret]; [|discriminate].
    intros H. inversion H; subst. now apply IH. }
  destruct (mapM Yara.compile_string (Yara.rule_strings r)) as [e1|ps] eqn:E;
    cbn [bind ret]; [|discriminate].
  intros H. inversion H; subst. now apply (G _ _ E).
Qed.

(** A rule set with a rule that does not compile does not compile. *)
Lemma compile_with_bad_rule {strict : bool} (needle : list Yara.rule) (r : Yara.rule) :
  In r needle -> Yara.compile_rule r = inl CompileError ->
  Yara.compile strict needle = inl CompileError.
Proof.
  intros Hin Hr. unfold Yara.compile.
  destruct (Yara.distinct (map Yara.rule_name needle) || negb strict); [|reflexivity].
  induction needle as [|r0 needle IH]; [destruct Hin|].
  cbn [mapM]. destruct (Yara.compile_rule r0) as [e|c] eqn:E; cbn [bind].
  - now rewrite (compile_rule_error _ _ E).
  - destruct Hin as [->|Hin]; [congruence|]. rewrite (IH Hin). reflexivity.
Qed.

(** With a first digit 0 the value is the number of the other nibbles:
    its text starts with the type and parity. *)
Lemma leading_zero_text (kind : Z) (rest : string) :
  Py.all_chars Py.is_decimal rest = true ->
  kind = 1 \/ (kind = 3 /\ Nat.even (S (String.length rest)) = true) ->
  exists v t bcd,
    identity_octets kind (String "0" rest) = inr v
    /\ Py.format_x v = String t (Py.bytes_hex bcd)
    /\ t <> "0"%char
    /\ List.length bcd = Nat.div2 (S (String.length rest))
    /\ Forall Py.is_byte bcd.
Proof.
  intros Hr Hk.
  destruct (identity_octets_text kind "0" rest Hr) as [bcd [E [Hl Hf]]].
  destruct (type_and_parity_digit kind (S (String.length rest)) Hk) as [t [Et Ht]].
  rewrite Et in E.
  change (String t "" +:+ Py.bytes_hex bcd) with (String t (Py.bytes_hex bcd)) in E.
  rewrite int16_leading_zero in E by discriminate.
  assert (Hm : 0 <= Z.of_nat (S (String.length rest)) mod 2 < 2)
    by (apply Z.mod_pos_bound; lia).
  assert (Ht0 : t <> "0"%char).
  { intros ->. change (Py.hexval "0"%char) with (Some 0) in Ht.
    inversion Ht. destruct Hk as [->|[-> _]]; lia. }
  assert (Htl : Py.is_lower_hex t = true).
  { assert (Hd : Py.all_chars Py.is_decimal (String t "") = true).
    { rewrite <- Et. apply str_decimal. destruct Hk as [->|[-> _]]; lia. }
    cbn in Hd. rewrite andb_true_r in Hd. now apply decimal_is_lower_hex. }
  destruct (format_x_int16 t (Py.bytes_hex bcd)) as [v [Hv [Hx _]]]; [|exact Ht0|].
  { cbn [Py.all_chars]. rewrite Htl, bytes_hex_lower by exact Hf. reflexivity. }
  rewrite Hv in E. exists v, t, bcd. repeat split; assumption.
Qed.

(** With a first digit 0 the rule is written, but its literal string has
    an odd number of nibbles: no rule set with that rule compiles. *)
Lemma leading_zero_not_compiled (strict : bool) (kind : Z) (rest : string) :
  Py.all_chars Py.is_decimal rest = true ->
  kind = 1 \/ (kind = 3 /\ Nat.even (S (String.length rest)) = true) ->
  exists v r,
    identity_octets kind (String "0" rest) = inr v
    /\ String.length (Py.format_x v) = S (2 * Nat.div2 (S (String.length rest)))
    /\ yara_rules kind (String "0" rest) = inr r
    /\ forall needle, In r needle -> Yara.compile strict needle = inl CompileError.
Proof.
  intros Hr Hk.
  destruct (leading_zero_text kind rest Hr Hk) as [v [t [bcd [E [Hx [_ [Hl Hf]]]]]]].
  assert (Hlen : String.length (Py.format_x v) = S (2 * Nat.div2 (S (String.length rest)))).
  { rewrite Hx. cbn [String.length]. rewrite (proj2 (bytes_hex_ok bcd Hf)), Hl. reflexivity. }
  unfold yara_rules. rewrite E. cbn [bind].
  destruct (Py.format_x (Z.shiftl v 3)) as [|c3 s3] eqn:E3;
    [exfalso; exact (format_x_nonempty _ E3)|].
  unfold shift3_pattern. cbn [Py.index0 bind ret].
  do 2 eexists. split; [reflexivity|]. split; [exact Hlen|]. split; [reflexivity|].
  intros needle Hin. apply (compile_with_bad_rule _ _ Hin).
  unfold Yara.compile_rule. cbn [Yara.rule_strings mapM].
  unfold Yara.compile_string at 1. cbn [snd].
  rewrite odd_text_not_pattern; [reflexivity|].
  rewrite Hlen, Nat.odd_succ, Nat.even_mul. reflexivity.
Qed.

(** ** Reading the digits back *)

Lemma mod2_of_nat (n : nat) : Z.of_nat n mod 2 = if Nat.even n then 0 else 1.
Proof.
  destruct (Nat.even n) eqn:E.
  - apply Nat.even_spec in E. destruct E as [k ->].
    symmetry. apply (Z.mod_unique _ 2 (Z.of_nat k)); lia.
  - assert (O : Nat.odd n = true) by (rewrite <- Nat.negb_even, E; reflexivity).
    apply Nat.odd_spec in O. destruct O as [k ->].
    symmetry. apply (Z.mod_unique _ 2 (Z.of_nat k)); lia.
Qed.

Lemma hexchar_of_decimal (c : ascii) :
  Py.is_decimal c = true -> Py.hexchar (Py.code c - 48) = c.
Proof.
  destruct c as [[] [] [] [] [] [] [] []]; intros H; try discriminate H; reflexivity.
Qed.

Lemma decimal_value (c : ascii) : Py.is_decimal c = true -> 0 <= Py.code c - 48 < 10.
Proof. unfold Py.is_decimal. rewrite andb_true_iff, !Z.leb_le. lia. Qed.

Lemma packed_byte (h l : Z) :
  0 <= h < 16 -> 0 <= l < 16 -> (16 * h + l) / 16 = h /\ (16 * h + l) mod 16 = l.
Proof.
  intros Hh Hl. split.
  - symmetry. apply (Z.div_unique _ 16 h l); lia.
  - symmetry. apply (Z.mod_unique _ 16 h l); lia.
Qed.

Lemma substring_prefix (s1 s2 : string) :
  substring 0 (String.length s1) (s1 +:+ s2) = s1.
Proof.
  induction s1 as [|c s1 IH]; [destruct s2; reflexivity|].
  rewrite append_cons. cbn [String.length substring]. now rewrite IH.
Qed.

(** Unpacking what [encode_bcd] packed gives the digits, followed by the
    filler when their number is odd. *)
Lemma encode_bcd_unpack (rest : string) :
  Py.all_chars Py.is_decimal rest = true ->
  exists bcd,
    encode_bcd rest = inr bcd
    /\ swap_pairs (Py.bytes_hex bcd)
       = if Nat.odd (String.length rest) then rest +:+ "f" else rest.
Proof.
  induction rest as [| a | a b r IH] using string_pair_ind.
  - intros _. exists []. split; reflexivity.
  - cbn [Py.all_chars]. rewrite andb_true_r. intros Ha.
    unfold encode_bcd. cbn [String.length Nat.odd Nat.even negb]. rewrite append_cons, append_nil.
    cbn [swap_pairs Py.unhexlify]. rewrite (hexval_decimal a Ha).
    change (Py.hexval "F") with (Some 15). cbn [bind ret].
    eexists. split; [reflexivity|]. cbn [Py.bytes_hex].
    destruct (packed_byte 15 (Py.code a - 48)) as [-> ->];
      [lia | pose proof (decimal_value a Ha); lia |].
    rewrite (hexchar_of_decimal a Ha). reflexivity.
  - cbn [Py.all_chars]. rewrite !andb_true_iff. intros [Ha [Hb Hr]].
    destruct (IH Hr) as [bcd [E Hs]]. unfold encode_bcd in *.
    cbn [String.length]. change (Nat.odd (S (S (String.length r)))) with (Nat.odd (String.length r)).
    pose proof (decimal_value a Ha) as Va. pose proof (decimal_value b Hb) as Vb.
    destruct (Nat.odd (String.length r));
      rewrite ?append_cons; cbn [swap_pairs Py.unhexlify];
      rewrite (hexval_decimal a Ha), (hexval_decimal b Hb), E; cbn [bind ret];
      (eexists; split; [reflexivity|]); cbn [Py.bytes_hex swap_pairs];
      destruct (packed_byte (Py.code b - 48) (Py.code a - 48)) as [-> ->]; try lia;
      rewrite (hexchar_of_decimal a Ha), (hexchar_of_decimal b Hb), Hs; reflexivity.
Qed.

(** For kind 1, and for kind 3 with an even number of digits, an identity
    whose first digit is not 0 is read back from the value. *)
Lemma round_trip_without_leading_zero (kind : Z) (c : ascii) (rest : string) :
  Py.all_chars Py.is_decimal (String c rest) = true ->
  c <> "0"%char ->
  kind = 1 \/ (kind = 3 /\ Nat.even (String.length (String c rest)) = true) ->
  exists v, identity_octets kind (String c rest) = inr v
            /\ rederive_digits v = Some (kind, String c rest).
Proof.
  cbn [Py.all_chars String.length]. rewrite andb_true_iff. intros [Hc Hr] Hc0 Hk.
  destruct (encode_bcd_unpack rest Hr) as [bcd [Eb Hs]].
  destruct (encode_bcd_ok rest Hr) as [bcd' [Eb' [Hl Hf]]].
  rewrite Eb in Eb'. inversion Eb'; subst bcd'. clear Eb'.
  destruct (type_and_parity_digit kind (S (String.length rest)) Hk) as [t [Et Ht]].
  assert (Hk8 : 0 <= kind < 8) by (destruct Hk as [->|[-> _]]; lia).
  assert (Htd : Py.is_decimal t = true).
  { assert (Hd : Py.all_chars Py.is_decimal (String t "") = true).
    { rewrite <- Et. apply str_decimal. rewrite mod2_of_nat.
      destruct (Nat.even _); lia. }
    cbn in Hd. now rewrite andb_true_r in Hd. }
  destruct (format_x_int16 c (String t (Py.bytes_hex bcd))) as [v [Hv [Hx _]]];
    [|exact Hc0|].
  { cbn [Py.all_chars].
    rewrite !decimal_is_lower_hex, bytes_hex_lower by assumption. reflexivity. }
  exists v. split.
  - unfold identity_octets. cbn [Py.index0 Py.from1 bind ret String.length].
    rewrite Eb, Et. exact Hv.
  - unfold rederive_digits. rewrite Hx, Ht.
    rewrite (proj2 (bytes_hex_ok bcd Hf)), Nat.even_mul. cbn [Nat.even orb].
    rewrite Hs, mod2_of_nat. rewrite Nat.even_succ.
    destruct (Nat.odd (String.length rest)) eqn:Eo.
    + replace (8 <=? kind + 8 * 0) with false by (symmetry; apply Z.leb_gt; lia).
      rewrite length_append. cbn [String.length].
      replace (String.length rest + 1 - 1)%nat with (String.length rest) by lia.
      rewrite substring_prefix. do 2 f_equal. lia.
    + replace (8 <=? kind + 8 * 1) with true by (symmetry; apply Z.leb_le; lia).
      do 2 f_equal. lia.
Qed.

(** What is read back starts with the first nibble of the text of the
    value. *)
Lemma rederive_first (v : Z) (k : Z) (s : string) :
  rederive_digits v = Some (k, s) ->
  exists c r s', Py.format_x v = String c r /\ s = String c s'.
Proof.
  unfold rederive_digits.
  destruct (Py.format_x v) as [|c [|tp packed]]; try discriminate.
  destruct (Py.hexval tp) as [t|]; [|discriminate].
  destruct (Nat.even (String.length packed)); [|discriminate].
  destruct (8 <=? t); intros H; inversion H; eauto.
Qed.

(** With a first digit 0 the value has lost its first nibble, and the
    digits that are read back do not start with 0. *)
Lemma round_trip_leading_zero_lost (kind : Z) (rest : string) :
  Py.all_chars Py.is_decimal rest = true ->
  kind = 1 \/ (kind = 3 /\ Nat.even (S (String.length rest)) = true) ->
  exists v, identity_octets kind (String "0" rest) = inr v
            /\ rederive_digits v <> Some (kind, String "0" rest).
Proof.
  intros Hr Hk.
  destruct (leading_zero_text kind rest Hr Hk) as [v [t [bcd [E [Hx [Ht0 _]]]]]].
  exists v. split; [exact E|].
  intros H. apply rederive_first in H. destruct H as [c [r [s' [Hc Hs]]]].
  rewrite Hx in Hc. inversion Hc; subst. inversion Hs; subst. contradiction.
Qed.

(** With kind 3 and an odd number of digits the type and parity takes two
    nibbles, [11]: the parity that is read back is even and the digits are
    lost. *)
Lemma round_trip_kind3_odd_lost (c : ascii) (rest : string) :
  Py.all_chars Py.is_decimal (String c rest) = true ->
  Nat.odd (String.length (String c rest)) = true ->
  exists v, identity_octets 3 (String c rest) = inr v
            /\ rederive_digits v <> Some (3, String c rest).
Proof.
  cbn [Py.all_chars String.length]. rewrite andb_true_iff. intros [Hc Hr] Ho.
  destruct (identity_octets_text 3 c rest Hr) as [bcd [E [Hl Hf]]].
  rewrite mod2_of_nat, <- Nat.negb_odd, Ho in E. cbn [negb] in E.
  change (Py.str (3 + 8 * 1)) with "11" in E. rewrite !append_cons, append_nil in E.
  assert (Hlow : Py.all_chars Py.is_lower_hex (String "1" (String "1" (Py.bytes_hex bcd))) = true).
  { cbn [Py.all_chars]. rewrite bytes_hex_lower by exact Hf. reflexivity. }
  destruct (Ascii.eqb_spec c "0") as [->|Hc0].
  - rewrite int16_leading_zero in E by discriminate.
    destruct (format_x_int16 _ _ Hlow) as [v [Hv [Hx _]]]; [discriminate|].
    rewrite Hv in E. exists v. split; [exact E|].
    unfold rederive_digits. rewrite Hx. change (Py.hexval "1") with (Some 1).
    destruct (Nat.even _); [|discriminate]. cbn. discriminate.
  - destruct (format_x_int16 c (String "1" (String "1" (Py.bytes_hex bcd)))) as [v [Hv [Hx _]]];
      [|exact Hc0|].
    { cbn [Py.all_chars] in *. rewrite decimal_is_lower_hex by exact Hc. exact Hlow. }
    rewrite Hv in E. exists v. split; [exact E|].
    unfold rederive_digits. rewrite Hx. change (Py.hexval "1") with (Some 1).
    cbn [String.length]. rewrite (proj2 (bytes_hex_ok bcd Hf)), Nat.even_succ, Nat.odd_mul.
    cbn. discriminate.
Qed.

Lemma mapM_In {A B} (f : A -> result B) (l : list A) (l' : list B) (x : A) :
  mapM f l = inr l' -> In x l -> exists y, f x = inr y /\ In y l'.
Proof.
  revert l'. induction l as [|a l IH]; intros l' H Hin; [destruct Hin|].
  cbn [mapM] in H. destruct (f a) as [e|b] eqn:Ea; [discriminate|]. cbn [bind] in H.
  destruct (mapM f l) as [e|bs] eqn:El; [discriminate|]. cbn [bind ret] in H.
  inversion H; subst l'. destruct Hin as [->|Hin].
  - exists b. split; [exact Ea | left; reflexivity].
  - destruct (IH bs eq_refl Hin) as [y [Hy Hy']]. exists y. split; [exact Hy | right; exact Hy'].
Qed.

(** A run that has extracted an identity whose first digit is 0 ends with
    an exception before any file is reported or overwritten. *)
Lemma leading_zero_run_aborts (strict : bool)
    (rdpcap : list Z -> option (list Extract.packet)) (parse : list Z -> option emm_msg)
    (fs : gmap string (list Z)) (haystacks : list string)
    (idents : gset identity) (kind : Z) (rest : string) :
  collect_idents rdpcap parse fs haystacks ∅ = inr idents ->
  (kind, String "0" rest) ∈ idents ->
  Py.all_chars Py.is_decimal rest = true ->
  kind = 1 \/ (kind = 3 /\ Nat.even (S (String.length rest)) = true) ->
  exists e, main strict rdpcap parse fs haystacks
            = {| ended := Uncaught e; disk := fs; report := [] |}.
Proof.
  intros Hc Hi Hr Hk. unfold main. rewrite Hc.
  destruct (build_needle idents) as [e|needle] eqn:Eb; [eauto|].
  destruct (leading_zero_not_compiled strict kind rest Hr Hk) as [v [r [_ [_ [Er Hbad]]]]].
  destruct (mapM_In _ _ _ (kind, String "0" rest) Eb) as [r' [Er' Hin]].
  { apply list_elem_of_In, elem_of_elements, Hi. }
  cbn [fst snd] in Er'. rewrite Er in Er'. inversion Er'; subst r'.
  destruct haystacks as [|h hs].
  - exfalso. exact (collect_idents_nonempty _ _ _ _ _ _ Hc Hi eq_refl).
  - exists CompileError. cbn [redact_loop]. unfold scan. rewrite (Hbad needle Hin). reflexivity.
Qed.

(** ** The leading zero and the decimal type *)

(** Where the first digit is 2 or 3 and the type and parity is one digit,
    the digits are read back from the value. *)
Example rederive_imsi :
  (do v <- identity_octets 1 "310150123456789"; ret (rederive_digits v))
  = inr (Some (1, "310150123456789")).
Proof. vm_compute. reflexivity. Qed.

Example rederive_imeisv :
  (do v <- identity_octets 3 "3512345678901234"; ret (rederive_digits v))
  = inr (Some (3, "3512345678901234")).
Proof. vm_compute. reflexivity. Qed.

(** C2 at the failing inputs.  With kind 3 and an odd number of digits the
    type and parity is written by [str] as the two characters [11], so
    the value has one nibble more and its parity bit says even.  With a
    first digit 0 the value has lost its first nibble.  In both cases the
    digits are not read back; [round_trip_kind3_odd_lost] and
    [round_trip_leading_zero_lost] say so for all such identities, and
    [round_trip_without_leading_zero] that the other identities are read
    back. *)
Theorem C2_round_trip_lost :
  identity_octets 3 "123456789012345" = inr 0x11132547698103254
  /\ Py.format_x 0x11132547698103254 = "11132547698103254"
  /\ rederive_digits 0x11132547698103254 <> Some (3, "123456789012345")
  /\ identity_octets 1 "001010123456789" = inr 0x910101032547698
  /\ Py.format_x 0x910101032547698 = "910101032547698"
  /\ rederive_digits 0x910101032547698 <> Some (1, "001010123456789").
Proof. repeat split; try (vm_compute; reflexivity); vm_compute; discriminate. Qed.

(** The scenario with the subscriber 310150123456789, whose first digit
    is not 0: one match, of the literal string, at the offset of the
    element; after the overwrite the file is verified. *)
Example end_to_end_first_digit_3 :
  (do r <- yara_rules 1 "310150123456789";
   do results <- scan true [r] {[ "trace.pcap" :=
                   Scenario.trace_with [0x39; 0x01; 0x51; 0x10; 0x32; 0x54; 0x76; 0x98] ]}
                   "trace.pcap";
   ret (matches_from results))
  = inr [ {| Yara.offset := 24; Yara.length := 8; Yara.pattern := "$ident1" |} ]
  /\ main true Scenario.one_packet (Scenario.always (1, "310150123456789"))
          {[ "trace.pcap" :=
               Scenario.trace_with [0x39; 0x01; 0x51; 0x10; 0x32; 0x54; 0x76; 0x98] ]}
          ["trace.pcap"]
     = {| ended := Exit 0;
          disk := {[ "trace.pcap" := Scenario.trace_with (repeat 0xaa 8) ]};
          report := [("trace.pcap", Verified)] |}.
Proof. split; vm_compute; reflexivity. Qed.

(** C1 at the scenario of the claim.  The identity element of
    001010123456789 is at offset 24 of the file, and the text of its 16
    nibbles is a pattern that matches there.  The rule the tool writes has
    the text of the value as an [int] instead, 15 nibbles, the leading
    zero lost, which is not a pattern; the string of the shift by 3 has 17
    nibbles.  The rule set does not compile and the run ends with an
    exception at the first scan: there is no match, nothing is overwritten
    and the file is not reported as verified.  [leading_zero_run_aborts]
    says so for every identity whose first digit is 0. *)
Theorem C1_end_to_end_leading_zero :
  List.length Scenario.trace64 = 64%nat
  /\ firstn 8 (skipn 24 Scenario.trace64) = Scenario.imsi_octets
  /\ (exists pat, Yara.parse_pattern "0910101032547698" = Some pat
                  /\ Yara.match_here pat (skipn 24 Scenario.trace64) = true)
  /\ identity_octets 1 "001010123456789" = inr 0x910101032547698
  /\ yara_rules 1 "001010123456789"
     = inr {| Yara.rule_name := "mobile_id_type1";
              Yara.rule_strings :=
                [ ("$ident1", "910101032547698");
                  ("$shift1", "??20202064a8ed3?");
                  ("$shift2", "??404040c951da6?");
                  ("$shift3", "04??0808192a3b4c?") ] |}
  /\ Yara.parse_pattern "910101032547698" = None
  /\ Yara.parse_pattern "04??0808192a3b4c?" = None
  /\ main true Scenario.one_packet (Scenario.always (1, "001010123456789"))
          {[ "trace.pcap" := Scenario.trace64 ]} ["trace.pcap"]
     = {| ended := Uncaught CompileError;
          disk := {[ "trace.pcap" := Scenario.trace64 ]};
          report := [] |}.
Proof.
  split; [reflexivity|]. split; [reflexivity|].
  split; [eexists; split; vm_compute; reflexivity|].
  repeat split; vm_compute; reflexivity.
Qed.

(** * More of the tools *)

(** ** nasparse.py: the decoder and its heuristic *)

Section NasparseFacts.
Variable MO MT : list Z -> option emm_msg.

(** When the direction is not known the uplink decoding is tried first
    and the downlink decoding only when it fails: the result is that of
    the uplink call when it gives a message, else that of the downlink
    call, and [TypeError] is raised exactly when both calls raise it. *)
Theorem parse_nas_message_unknown_direction (buf : Nasparse.buffer) :
  (forall m, Nasparse.parse_nas_message MO MT buf None = inr m
             <-> Nasparse.parse_nas_message MO MT buf (Some true) = inr m
                 \/ (Nasparse.parse_nas_message MO MT buf (Some true) = inl Nasparse.TypeError
                     /\ Nasparse.parse_nas_message MO MT buf (Some false) = inr m))
  /\ (Nasparse.parse_nas_message MO MT buf None = inl Nasparse.TypeError
      <-> Nasparse.parse_nas_message MO MT buf (Some true) = inl Nasparse.TypeError
          /\ Nasparse.parse_nas_message MO MT buf (Some false) = inl Nasparse.TypeError)
  /\ (forall e u, Nasparse.parse_nas_message MO MT buf u = inl (Nasparse.Raised e)
                  <-> exists s, buf = Nasparse.Hex s /\ Py.unhexlify s = inl e).
Proof.
  unfold Nasparse.parse_nas_message.
  destruct buf as [s|b]; [destruct (Py.unhexlify s) as [e|b] eqn:Eu|].
  - split; [|split].
    + intros m. split; [discriminate | intros [H|[H _]]; discriminate].
    + split; [discriminate | intros [H _]; discriminate].
    + intros e0 u. split.
      * intros H. inversion H; subst. eauto.
      * intros [s' [Hs He]]. inversion Hs; subst. congruence.
  - split; [|split].
    + intros m. destruct (MO b), (MT b); split; intros H;
        try (inversion H; subst); auto; try tauto;
        destruct H as [H|[H1 H2]]; congruence.
    + destruct (MO b), (MT b); split; try discriminate; try tauto;
        intros [H1 H2]; discriminate.
    + intros e0 u. split.
      * destruct u as [[|]|]; destruct (MO b), (MT b); discriminate.
      * intros [s' [Hs He]]. inversion Hs; subst. congruence.
  - split; [|split].
    + intros m. destruct (MO b), (MT b); split; intros H;
        try (inversion H; subst); auto; try tauto;
        destruct H as [H|[H1 H2]]; congruence.
    + destruct (MO b), (MT b); split; try discriminate; try tauto;
        intros [H1 H2]; discriminate.
    + intros e0 u. split.
      * destruct u as [[|]|]; destruct (MO b), (MT b); discriminate.
      * intros [s' [Hs He]]. discriminate.
Qed.

End NasparseFacts.

Lemma hexval_hexchar (n : Z) : 0 <= n < 16 -> Py.hexval (Py.hexchar n) = Some n.
Proof.
  intros H. rewrite <- (Z2Nat.id n) by lia.
  assert (Hk : (Z.to_nat n < 16)%nat) by lia.
  revert Hk. generalize (Z.to_nat n). intros k Hk.
  do 16 (destruct k as [|k]; [reflexivity|]). lia.
Qed.

(** [bytes.hex()] followed by [unhexlify] gives the bytes back. *)
Lemma unhexlify_bytes_hex (bs : list Z) :
  Forall Py.is_byte bs -> Py.unhexlify (Py.bytes_hex bs) = inr bs.
Proof.
  induction 1 as [|b bs Hb _ IH]; [reflexivity|].
  unfold Py.is_byte in Hb. cbn [Py.bytes_hex Py.unhexlify].
  rewrite !hexval_hexchar, IH.
  - cbn [bind ret]. do 2 f_equal. symmetry. apply Z.div_mod. lia.
  - apply Z.mod_pos_bound. lia.
  - split; [apply Z.div_pos; lia | apply Z.div_lt_upper_bound; lia].
Qed.

(** Handing the decoder the hexadecimal text of a payload, as
    [extract.py] does, is the same as handing it the payload. *)
Theorem parse_nas_message_hex (MO MT : list Z -> option emm_msg)
    (payload : list Z) (uplink : option bool) :
  Forall Py.is_byte payload ->
  Nasparse.parse_nas_message MO MT (Nasparse.Hex (Py.bytes_hex payload)) uplink
  = Nasparse.parse_nas_message MO MT (Nasparse.Bytes payload) uplink.
Proof.
  intros H. unfold Nasparse.parse_nas_message. now rewrite unhexlify_bytes_hex.
Qed.

Lemma parse_nas_message_hex_witness :
  Nasparse.parse_nas_message (fun _ => None) (fun b => Some (Scenario.attach (1, "24")))
    (Nasparse.Hex (Py.bytes_hex [0x07; 0x41; 0xff])) None
  = Nasparse.parse_nas_message (fun _ => None) (fun b => Some (Scenario.attach (1, "24")))
      (Nasparse.Bytes [0x07; 0x41; 0xff]) None.
Proof.
  apply (parse_nas_message_hex (fun _ => None) (fun b => Some (Scenario.attach (1, "24")))
           [0x07; 0x41; 0xff] None).
  repeat constructor; unfold Py.is_byte; lia.
Defined.

(** The two heuristics.  [heur_ue_imsi_sent] triggers exactly on an attach
    request of type 2, bare or security-protected, whatever identity it
    carries.  Whenever [heur_ue_id_sent] of [extract.py] returns an
    identity, the message is a security mode complete or
    [heur_ue_imsi_sent] triggers as well; and [heur_ue_imsi_sent] never
    triggers on a security mode complete. *)
Theorem heuristics_agree (msg : emm_msg) :
  (fst (Nasparse.heur_ue_imsi_sent msg) = true
   <-> exists a, (msg = EMMAttachRequest a \/ msg = EMMSecProtNASMessage (WrapsAttachRequest a))
                 /\ EPSAttachType a = 2)
  /\ (forall m, Extract.heur_ue_id_sent msg = inr (true, m) ->
      (exists s, msg = EMMSecurityModeComplete s)
      \/ Nasparse.heur_ue_imsi_sent msg = (true, Some Nasparse.output))
  /\ (forall s, Nasparse.heur_ue_imsi_sent (EMMSecurityModeComplete s) = (false, None)).
Proof.
  split; [|split].
  - destruct msg as [a|[a|s|]|s|]; cbn;
      unfold Nasparse.EPS_IMSI_ATTACH;
      try (destruct (Z.eqb_spec (EPSAttachType a) 2) as [E|E]; cbn);
      split; try discriminate;
      try (intros _; exists a; split; [auto | exact E]);
      try (intros [a' [[H|H] H2]]; inversion H; subst; try reflexivity; contradiction);
      intros [a' [[H|H] _]]; discriminate.
  - intros m. destruct msg as [a|[a|s|]|s|]; cbn;
      unfold Extract.EPS_IMSI_ATTACH, Nasparse.EPS_IMSI_ATTACH;
      try (destruct (EPSAttachType a =? 2); cbn);
      try discriminate; eauto.
  - reflexivity.
Qed.

(** ** extract.py: the identities of a capture *)

(** The heuristic returns an identity in three cases only: an attach
    request of type 2 whose identity element decodes, the same attach
    request inside a security-protected message, and a security mode
    complete whose IMEISV decodes; in each case the digits are not the
    marker and the pair is returned as decoded.  A security mode complete
    inside a security-protected message is not looked at. *)
Theorem heur_ue_id_sent_cases (msg : emm_msg) (i : identity) :
  Extract.heur_ue_id_sent msg = inr (true, Extract.Ident i)
  <-> snd i <> "10"
      /\ ((exists a, (msg = EMMAttachRequest a
                      \/ msg = EMMSecProtNASMessage (WrapsAttachRequest a))
                     /\ EPSAttachType a = 2 /\ EPSID a = Some (Pair i))
          \/ (exists s, msg = EMMSecurityModeComplete s /\ IMEISV s = Some (Pair i))).
Proof.
  rewrite <- redacted_marker_text.
  destruct msg as [a|[a|s|]|s|]; cbn [Extract.heur_ue_id_sent get_attach_request ret raise];
    unfold Extract.EPS_IMSI_ATTACH;
    try (destruct (Z.eqb_spec (EPSAttachType a) 2) as [E|E]);
    rewrite ?check_identity_triggered; split;
    try discriminate;
    try (intros [H1 H2]; split; [exact H2|]; eauto 8);
    try (intros [H1 [[a' [[H|H] [H2 H3]]]|[s' [H H2]]]]; inversion H; subst;
         try contradiction; auto);
    intros [_ [[a' [[H|H] _]]|[s' [H _]]]]; discriminate.
Qed.

(** Where the heuristic raises: on the three kinds of message that reach
    the unpacking, when the element decodes to something that is not a
    pair; the exception is [ValueError]. *)
Lemma heur_ue_id_sent_raises (msg : emm_msg) (e : exn) :
  Extract.heur_ue_id_sent msg = inl e
  <-> e = ValueError
      /\ ((exists a, (msg = EMMAttachRequest a
                      \/ msg = EMMSecProtNASMessage (WrapsAttachRequest a))
                     /\ EPSAttachType a = 2 /\ EPSID a = Some NotPair)
          \/ (exists s, msg = EMMSecurityModeComplete s /\ IMEISV s = Some NotPair)).
Proof.
  destruct msg as [a|[a|s|]|s|]; cbn [Extract.heur_ue_id_sent get_attach_request ret raise];
    unfold Extract.EPS_IMSI_ATTACH;
    try (destruct (Z.eqb_spec (EPSAttachType a) 2) as [E|E]);
    rewrite ?check_identity_raises; split;
    try discriminate;
    try (intros [H1 H2]; split; [exact H2|]; eauto 8);
    try (intros [H1 [[a' [[H|H] [H2 H3]]]|[s' [H H2]]]]; inversion H; subst;
         try contradiction; auto);
    intros [_ [[a' [[H|H] _]]|[s' [H _]]]]; discriminate.
Qed.

Section ExtractLoop.
Variable parse : list Z -> option emm_msg.

Lemma on_packet_raises (p : Extract.packet) (e : exn) :
  Extract.on_packet parse p = inl e
  <-> (p = Extract.NoUDPRaw /\ e = IndexError)
      \/ exists load msg, p = Extract.UDPRaw load /\ parse (skipn 16 load) = Some msg
                          /\ Extract.heur_ue_id_sent msg = inl e.
Proof.
  unfold Extract.on_packet. destruct p as [|load]; cbn [Extract.udp_raw bind raise ret].
  - split.
    + intros H. inversion H. left. split; reflexivity.
    + intros [[_ ->]|[l [m [H _]]]]; [reflexivity | discriminate].
  - destruct (parse (skipn 16 load)) as [msg|] eqn:Ep.
    + destruct (Extract.heur_ue_id_sent msg) as [e0|[[|] [| |j]]] eqn:Eh; cbn [bind ret]; split;
        try discriminate;
        try (intros [[H _]|[l [m [Hl [Hp Hh]]]]]; [discriminate|];
             inversion Hl; subst l; rewrite Ep in Hp; inversion Hp; subst m;
             rewrite Eh in Hh; discriminate).
      * intros H. inversion H; subst. right. eauto.
      * intros [[H _]|[l [m [Hl [Hp Hh]]]]]; [discriminate|].
        inversion Hl; subst l. rewrite Ep in Hp. inversion Hp; subst m.
        rewrite Eh in Hh. now inversion Hh.
    + split; [discriminate|].
      intros [[H _]|[l [m [Hl [Hp _]]]]]; [discriminate|].
      inversion Hl; subst l. congruence.
Qed.

Lemma main_found (packets : list Extract.packet) :
  forall idents, Extract.main parse packets = inr idents ->
    (forall i, In i idents
               <-> exists load msg, In (Extract.UDPRaw load) packets
                                    /\ parse (skipn 16 load) = Some msg
                                    /\ Extract.heur_ue_id_sent msg
                                       = inr (true, Extract.Ident i))
    /\ (List.length idents <= List.length packets)%nat.
Proof.
  induction packets as [|p ps IH]; intros idents H.
  - inversion H; subst. split; [|cbn; lia].
    intros i. split; [intros [] | intros [l [m [[] _]]]].
  - apply main_cons in H. destruct H as [found [rest [Hf [Hr ->]]]].
    destruct (IH rest Hr) as [IH1 IH2]. split.
    + intros i. split.
      * intros Hin.
        assert (Hcase : found = Some i \/ In i rest).
        { destruct found as [j|]; [destruct Hin as [<-|Hin]|]; auto. }
        destruct Hcase as [->|Hin'].
        -- apply on_packet_found in Hf. destruct Hf as [l [m [-> [Hp Hh]]]].
           exists l, m. split; [left; reflexivity | split; assumption].
        -- apply IH1 in Hin'. destruct Hin' as [l [m [Hl Hx]]].
           exists l, m. split; [right; exact Hl | exact Hx].
      * intros [l [m [[Hl|Hl] [Hp Hh]]]].
        -- assert (Hi : Extract.on_packet parse p = inr (Some i)).
           { apply on_packet_found. exists l, m. split; [now symmetry | split; assumption]. }
           rewrite Hi in Hf. inversion Hf; subst. left. reflexivity.
        -- assert (Hin : In i rest) by (apply IH1; eauto).
           destruct found; [right|]; exact Hin.
    + destruct found; cbn [List.length]; lia.
Qed.

Lemma main_raises (packets : list Extract.packet) (e : exn) :
  Extract.main parse packets = inl e
  <-> exists before p after,
        packets = before ++ p :: after
        /\ (forall q, In q before -> exists r, Extract.on_packet parse q = inr r)
        /\ Extract.on_packet parse p = inl e.
Proof.
  induction packets as [|p ps IH].
  - split; [discriminate|]. intros [b [q [a [H _]]]]. now destruct b.
  - cbn [Extract.main]. destruct (Extract.on_packet parse p) as [e0|found] eqn:Ef; cbn [bind].
    + split.
      * intros H. inversion H; subst. exists [], p, ps.
        split; [reflexivity|]. split; [intros q []|exact Ef].
      * intros [b [q [a [H [Hb Hq]]]]]. destruct b as [|q0 b]; cbn in H; inversion H; subst.
        -- congruence.
        -- destruct (Hb q0 (or_introl eq_refl)) as [r Hr]. congruence.
    + destruct (Extract.main parse ps) as [e1|rest] eqn:Em; cbn [bind ret].
      * split.
        -- intros H. inversion H; subst.
           destruct (proj1 IH eq_refl) as [b [q [a [-> [Hb Hq]]]]].
           exists (p :: b), q, a. split; [reflexivity|]. split; [|exact Hq].
           intros q' [<-|Hin]; [eauto | auto].
        -- intros [b [q [a [H [Hb Hq]]]]]. destruct b as [|q0 b]; cbn in H; inversion H; subst.
           ++ congruence.
           ++ f_equal. assert (G : @inl exn (list identity) e1 = inl e); [|congruence].
              apply IH. exists b, q, a. split; [reflexivity|]. split; [|exact Hq].
              intros q' Hin. apply Hb. now right.
      * split; [discriminate|].
        intros [b [q [a [H [Hb Hq]]]]]. destruct b as [|q0 b]; cbn in H; inversion H; subst.
        -- congruence.
        -- assert (G : @inr exn (list identity) rest = inl e); [|discriminate].
           apply IH. exists b, q, a. split; [reflexivity|]. split; [|exact Hq].
           intros q' Hin. apply Hb. now right.
Qed.

(** What [main] returns and when it raises.  When it returns, the
    identities are those of the packets whose payload, after the 16 bytes
    of the GSMTAP header, decodes to a message on which the heuristic
    triggers; a packet that does not decode is passed over, and there is
    at most one identity for each packet.  It raises when the body of the
    loop raises on some packet, with the exception of the first such
    packet: [IndexError] for a packet without a UDP payload, [ValueError]
    for a message whose identity element decodes to something that is not
    a pair; neither is caught by [except TypeError]. *)
Theorem extract_main_spec (packets : list Extract.packet) :
  (forall idents, Extract.main parse packets = inr idents ->
     (forall i, In i idents
                <-> exists load msg, In (Extract.UDPRaw load) packets
                                     /\ parse (skipn 16 load) = Some msg
                                     /\ Extract.heur_ue_id_sent msg
                                        = inr (true, Extract.Ident i))
     /\ (List.length idents <= List.length packets)%nat)
  /\ (forall e, Extract.main parse packets = inl e
        <-> exists before p after,
              packets = before ++ p :: after
              /\ (forall q, In q before -> exists r, Extract.on_packet parse q = inr r)
              /\ Extract.on_packet parse p = inl e)
  /\ (forall p e, Extract.on_packet parse p = inl e
        <-> (p = Extract.NoUDPRaw /\ e = IndexError)
            \/ exists load msg, p = Extract.UDPRaw load /\ parse (skipn 16 load) = Some msg
                                /\ Extract.heur_ue_id_sent msg = inl e)
  /\ (forall msg e, Extract.heur_ue_id_sent msg = inl e
        <-> e = ValueError
            /\ ((exists a, (msg = EMMAttachRequest a
                            \/ msg = EMMSecProtNASMessage (WrapsAttachRequest a))
                           /\ EPSAttachType a = 2 /\ EPSID a = Some NotPair)
                \/ (exists s, msg = EMMSecurityModeComplete s /\ IMEISV s = Some NotPair))).
Proof.
  split; [apply main_found|]. split; [apply main_raises|].
  split; [apply on_packet_raises | apply heur_ue_id_sent_raises].
Qed.

(** The identities of a capture are those of its parts, in order; when
    the extraction raises on a part, it raises on the whole, the
    exception of the first part that raises. *)
Theorem extract_main_app (packets more : list Extract.packet) :
  Extract.main parse (packets ++ more)
  = (do found <- Extract.main parse packets;
     do rest <- Extract.main parse more;
     ret (found ++ rest)).
Proof.
  induction packets as [|p ps IH].
  - cbn [app Extract.main bind ret]. destruct (Extract.main parse more); reflexivity.
  - cbn [app Extract.main]. rewrite IH.
    destruct (Extract.on_packet parse p) as [e|found]; [reflexivity|]. cbn [bind].
    destruct (Extract.main parse ps) as [e|l]; [reflexivity|]. cbn [bind ret].
    destruct (Extract.main parse more) as [e|l']; [reflexivity|]. cbn [bind ret].
    destruct found; reflexivity.
Qed.

End ExtractLoop.

(** With the decoder of nasparse.py, the message of a packet is the
    uplink decoding of its payload, or the downlink decoding when there is
    no uplink decoding; a payload that neither decoder reads is passed
    over. *)
Theorem nas_of_payload_spec (MO MT : list Z -> option emm_msg) (payload : list Z) :
  Forall Py.is_byte payload ->
  nas_of_payload MO MT payload
  = match MO payload with
    | Some msg => Some msg
    | None => MT payload
    end.
Proof.
  intros H. unfold nas_of_payload, Nasparse.parse_nas_message.
  rewrite unhexlify_bytes_hex by exact H. destruct (MO payload); [reflexivity|].
  destruct (MT payload); reflexivity.
Qed.

Lemma nas_of_payload_spec_witness :
  nas_of_payload (fun _ => None) (fun _ => Some EMMOther) [0x02; 0x3f; 0xd1; 0x21]
  = match (fun _ : list Z => @None emm_msg) [0x02; 0x3f; 0xd1; 0x21] with
    | Some msg => Some msg
    | None => (fun _ : list Z => Some EMMOther) [0x02; 0x3f; 0xd1; 0x21]
    end.
Proof.
  apply (nas_of_payload_spec (fun _ => None) (fun _ => Some EMMOther) [0x02; 0x3f; 0xd1; 0x21]).
  repeat constructor; unfold Py.is_byte; lia.
Defined.

(** ** pcap_check.py *)



Lemma header_byte (pkt : list Z) (len i : nat) :
  (i < len)%nat ->
  nth_error (PcapCheck.slice pkt PcapCheck.UDP_LEN (len + PcapCheck.UDP_LEN)) i
  = nth_error pkt (28 + i).
Proof.
  intros H. unfold PcapCheck.slice, PcapCheck.UDP_LEN.
  replace (len + 28 - 28)%nat with len by lia.
  rewrite nth_error_firstn. destruct (Nat.ltb_spec i len); [|lia].
  apply nth_error_skipn.
Qed.

Section PcapCheckFacts.
Variable MO MT : list Z -> option emm_msg.


(** The frames the header fields do not fit.  A frame of fewer than 30
    bytes, and a frame whose header length byte is 0, raise [IndexError];
    with a header of one word the type byte is read, and the frame is
    skipped or, when it is an LTE NAS frame, [IndexError] is raised where
    the direction is read. *)
Theorem process_frame_short (pkt : list Z) :
  ((List.length pkt <= 29)%nat ->
   PcapCheck.process_frame MO MT pkt = inl (Nasparse.Raised IndexError))
  /\ (nth_error pkt 29 = Some 0 ->
      PcapCheck.process_frame MO MT pkt = inl (Nasparse.Raised IndexError))
  /\ (forall typ, nth_error pkt 29 = Some 1 -> nth_error pkt 30 = Some typ ->
        PcapCheck.process_frame MO MT pkt
        = if typ =? 0x12 then inl (Nasparse.Raised IndexError) else inr None).
Proof.
  unfold PcapCheck.process_frame, PcapCheck.byte_at.
  change (PcapCheck.UDP_LEN + 1)%nat with 29%nat. split; [|split].
  - intros H. apply nth_error_None in H. now rewrite H.
  - intros ->. cbn [Z.mul Z.to_nat Nat.add]. unfold PcapCheck.slice.
    rewrite Nat.sub_diag. reflexivity.
  - intros typ -> Ht. change (Z.to_nat (1 * 4)) with 4%nat.
    rewrite (header_byte pkt 4 2) by lia. change (28 + 2)%nat with 30%nat. rewrite Ht.
    unfold PcapCheck.TYPE_LTE_NAS. destruct (typ =? 18); [|reflexivity]. cbn [negb].
    assert (E : nth_error (PcapCheck.slice pkt PcapCheck.UDP_LEN (4 + PcapCheck.UDP_LEN)) 4
                = None).
    { apply nth_error_None. unfold PcapCheck.slice, PcapCheck.UDP_LEN.
      rewrite length_firstn. lia. }
    now rewrite E.
Qed.

Lemma process_from_done (count : nat) (packets : list (list Z)) (printed : list nat) :
  PcapCheck.process_from MO MT count packets = (printed, PcapCheck.Done) ->
  (forall pkt, In pkt packets -> exists t, PcapCheck.process_frame MO MT pkt = inr t)
  /\ forall n, In n printed
               <-> (count < n)%nat
                   /\ exists pkt, nth_error packets (n - count - 1) = Some pkt
                                  /\ PcapCheck.process_frame MO MT pkt = inr (Some true).
Proof.
  revert count printed. induction packets as [|p ps IH]; intros count printed;
    cbn [PcapCheck.process_from].
  - intros H. inversion H; subst. split; [intros pkt []|].
    intros n. split; [intros [] | intros [_ [pkt [Hn _]]]].
    destruct (n - count - 1)%nat; discriminate.
  - destruct (PcapCheck.process_frame MO MT p) as [e|t] eqn:Ep; [discriminate|].
    destruct (PcapCheck.process_from MO MT (S count) ps) as [printed' e'] eqn:Er.
    intros H.
    assert (He : e' = PcapCheck.Done) by (destruct t as [[|]|]; inversion H; reflexivity).
    subst e'. destruct (IH (S count) printed' Er) as [IH1 IH2].
    split.
    { intros pkt [<-|Hin]; [eauto | auto]. }
    assert (Tail : forall n, In n printed'
               <-> (count < n)%nat /\ n <> S count
                   /\ exists pkt, nth_error (p :: ps) (n - count - 1) = Some pkt
                                  /\ PcapCheck.process_frame MO MT pkt = inr (Some true)).
    { intros n. rewrite IH2. split.
      - intros [Hlt [pkt [Hn Hp]]]. split; [lia|]. split; [lia|].
        exists pkt. split; [|exact Hp].
        replace (n - count - 1)%nat with (S (n - S count - 1)) by lia. exact Hn.
      - intros [Hlt [Hne [pkt [Hn Hp]]]]. split; [lia|].
        exists pkt. split; [|exact Hp].
        replace (n - count - 1)%nat with (S (n - S count - 1)) in Hn by lia. exact Hn. }
    assert (Head : forall n pkt, n = S count ->
               nth_error (p :: ps) (n - count - 1) = Some pkt -> pkt = p).
    { intros n pkt -> Hn. replace (S count - count - 1)%nat with 0%nat in Hn by lia.
      inversion Hn. reflexivity. }
    intros n. destruct t as [[|]|]; inversion H; subst printed; cbn [In]; rewrite ?Tail.
    + split.
      * intros [<-|[Hlt [_ Hex]]]; [|split; assumption].
        split; [lia|]. exists p. split; [|exact Ep].
        replace (S count - count - 1)%nat with 0%nat by lia. reflexivity.
      * intros [Hlt Hex]. destruct (Nat.eq_dec n (S count)) as [->|Hne]; [left; reflexivity|].
        right. split; [exact Hlt|]. split; [exact Hne | exact Hex].
    + split.
      * intros [Hlt [_ Hex]]. split; assumption.
      * intros [Hlt [pkt [Hn Hp]]]. split; [exact Hlt|]. split; [|eauto].
        intros ->. rewrite (Head _ _ eq_refl Hn) in Hp. congruence.
    + split.
      * intros [Hlt [_ Hex]]. split; assumption.
      * intros [Hlt [pkt [Hn Hp]]]. split; [exact Hlt|]. split; [|eauto].
        intros ->. rewrite (Head _ _ eq_refl Hn) in Hp. congruence.
Qed.

(** When the check reaches the end of the capture, the frame numbers it
    has printed are the positions, counted from 1 and frames that were
    skipped included, of the frames on which the heuristic triggered. *)
Theorem process_pcap_done (packets : list (list Z)) (printed : list nat) :
  PcapCheck.process_pcap MO MT packets = (printed, PcapCheck.Done) ->
  forall n, In n printed
            <-> (1 <= n)%nat
                /\ exists pkt, nth_error packets (n - 1) = Some pkt
                               /\ PcapCheck.process_frame MO MT pkt = inr (Some true).
Proof.
  intros H n. destruct (process_from_done 0 packets printed H) as [_ G].
  rewrite G. replace (n - 0 - 1)%nat with (n - 1)%nat by lia. reflexivity.
Qed.

Lemma process_from_abort (count : nat) (before after : list (list Z)) (pkt : list Z)
    (e : Nasparse.error) :
  (forall p, In p before -> exists t, PcapCheck.process_frame MO MT p = inr t) ->
  PcapCheck.process_frame MO MT pkt = inl e ->
  PcapCheck.process_from MO MT count (before ++ pkt :: after)
  = (fst (PcapCheck.process_from MO MT count before), PcapCheck.Aborted e).
Proof.
  revert count. induction before as [|p ps IH]; intros count Hb He;
    cbn [app PcapCheck.process_from].
  - now rewrite He.
  - destruct (Hb p (or_introl eq_refl)) as [t Et]. rewrite Et.
    rewrite (IH (S count)) by (intros; try apply Hb; try right; assumption).
    destruct (PcapCheck.process_from MO MT (S count) ps) as [printed e'].
    destruct t as [[|]|]; reflexivity.
Qed.

(** Nothing catches the exceptions of a frame: the first frame that
    raises ends the check with that exception, whatever follows it; the
    frames before it have been printed. *)
Theorem process_pcap_abort (before after : list (list Z)) (pkt : list Z)
    (e : Nasparse.error) :
  (forall p, In p before -> exists t, PcapCheck.process_frame MO MT p = inr t) ->
  PcapCheck.process_frame MO MT pkt = inl e ->
  PcapCheck.process_pcap MO MT (before ++ pkt :: after)
  = (fst (PcapCheck.process_pcap MO MT before), PcapCheck.Aborted e).
Proof. apply process_from_abort. Qed.

End PcapCheckFacts.


Lemma process_pcap_done_witness :
  In 3%nat [2; 3]%nat
  <-> (1 <= 3)%nat
      /\ exists pkt,
           nth_error [Frames.other_frame; Frames.nas_frame; Frames.nas_frame] (3 - 1) = Some pkt
           /\ PcapCheck.process_frame (fun _ => Some (Scenario.attach (1, "24"))) (fun _ => None)
                pkt = inr (Some true).
Proof.
  apply (process_pcap_done (fun _ => Some (Scenario.attach (1, "24"))) (fun _ => None)
           [Frames.other_frame; Frames.nas_frame; Frames.nas_frame] [2; 3]%nat).
  vm_compute. reflexivity.
Defined.

Lemma process_pcap_abort_witness :
  PcapCheck.process_pcap (fun _ => Some (Scenario.attach (1, "24"))) (fun _ => None)
    ([Frames.nas_frame; Frames.other_frame] ++ Frames.short_frame :: [Frames.nas_frame])
  = (fst (PcapCheck.process_pcap (fun _ => Some (Scenario.attach (1, "24"))) (fun _ => None)
            [Frames.nas_frame; Frames.other_frame]),
     PcapCheck.Aborted (Nasparse.Raised IndexError)).
Proof.
  apply (process_pcap_abort (fun _ => Some (Scenario.attach (1, "24"))) (fun _ => None)
           [Frames.nas_frame; Frames.other_frame] [Frames.nas_frame] Frames.short_frame
           (Nasparse.Raised IndexError)).
  - intros p [<-|[<-|[]]]; eexists; vm_compute; reflexivity.
  - vm_compute. reflexivity.
Defined.

(** ** redact.py: the overwrite *)

Lemma write_at_length (content : list Z) (off : nat) (data : list Z) :
  (off + List.length data <= List.length content)%nat ->
  List.length (write_at content off data) = List.length content.
Proof.
  intros H. unfold write_at.
  rewrite !length_app, length_firstn, repeat_length, length_skipn. lia.
Qed.

Lemma write_at_nth (content : list Z) (off : nat) (data : list Z) (i : nat) :
  (off + List.length data <= List.length content)%nat ->
  nth_error (write_at content off data) i
  = if (off <=? i)%nat && (i <? off + List.length data)%nat
    then nth_error data (i - off)
    else nth_error content i.
Proof.
  intros H. unfold write_at.
  replace (off - List.length content)%nat with 0%nat by lia. cbn [repeat app].
  destruct (Nat.leb_spec off i) as [Hle|Hlt]; cbn [andb].
  - rewrite nth_error_app2 by (rewrite length_firstn; lia).
    rewrite length_firstn. replace (Nat.min off (List.length content)) with off by lia.
    destruct (Nat.ltb_spec i (off + List.length data)) as [Hin|Hout].
    + apply nth_error_app1. lia.
    + rewrite nth_error_app2 by lia. rewrite nth_error_skipn. f_equal. lia.
  - rewrite nth_error_app1 by (rewrite length_firstn; lia).
    rewrite nth_error_firstn. destruct (Nat.ltb_spec i off); [reflexivity | lia].
Qed.

Lemma overwrite_bytes_length (matches : list Yara.Match) (content : list Z) (b : Z) :
  Overwrite.in_bounds (List.length content) matches ->
  List.length (overwrite_bytes content matches b) = List.length content.
Proof.
  revert content. induction matches as [|m ms IH]; intros content H; [reflexivity|].
  inversion H as [|? ? Hm Hms]; subst. cbn [overwrite_bytes fold_left].
  fold (overwrite_bytes (write_at content (Yara.offset m) (repeat b (Yara.length m))) ms b).
  assert (L : List.length (write_at content (Yara.offset m) (repeat b (Yara.length m)))
              = List.length content)
    by (apply write_at_length; rewrite repeat_length; exact Hm).
  rewrite IH; [exact L | now rewrite L].
Qed.

Lemma overwrite_bytes_nth (matches : list Yara.Match) (content : list Z) (b : Z) :
  Overwrite.in_bounds (List.length content) matches ->
  List.length (overwrite_bytes content matches b) = List.length content
  /\ forall i, (i < List.length content)%nat ->
       nth_error (overwrite_bytes content matches b) i
       = if Overwrite.covered matches i then Some b else nth_error content i.
Proof.
  intros H. split; [now apply overwrite_bytes_length|].
  revert content H. induction matches as [|m ms IH]; intros content H i Hi; [reflexivity|].
  inversion H as [|? ? Hm Hms]; subst. cbn [overwrite_bytes fold_left].
  fold (overwrite_bytes (write_at content (Yara.offset m) (repeat b (Yara.length m))) ms b).
  assert (L : List.length (write_at content (Yara.offset m) (repeat b (Yara.length m)))
              = List.length content)
    by (apply write_at_length; rewrite repeat_length; exact Hm).
  rewrite IH by (rewrite L; assumption).
  cbn [Overwrite.covered existsb]. fold (Overwrite.covered ms i).
  destruct (Overwrite.covered ms i); [now rewrite orb_true_r|]. rewrite orb_false_r.
  rewrite write_at_nth by (rewrite repeat_length; exact Hm).
  rewrite repeat_length. unfold Overwrite.within.
  destruct ((Yara.offset m <=? i)%nat && (i <? Yara.offset m + Yara.length m)%nat) eqn:E;
    [|reflexivity].
  apply andb_true_iff in E. destruct E as [E1 E2].
  apply Nat.leb_le in E1. apply Nat.ltb_lt in E2.
  apply nth_error_repeat. lia.
Qed.

Lemma covered_perm (ms ms' : list Yara.Match) (i : nat) :
  Permutation ms ms' -> Overwrite.covered ms i = Overwrite.covered ms' i.
Proof.
  unfold Overwrite.covered.
  induction 1 as [|m l l' _ IH|m m' l|l l' l'' _ IH1 _ IH2]; cbn [existsb].
  - reflexivity.
  - now rewrite IH.
  - rewrite !orb_assoc, (orb_comm (Overwrite.within m' i)). reflexivity.
  - now rewrite IH1.
Qed.

Lemma in_bounds_perm (size : nat) (ms ms' : list Yara.Match) :
  Permutation ms ms' -> Overwrite.in_bounds size ms -> Overwrite.in_bounds size ms'.
Proof.
  unfold Overwrite.in_bounds. intros P H. rewrite List.Forall_forall in *.
  intros m Hm. apply H. now apply (Permutation_in _ (Permutation_sym P)).
Qed.



(** The order of the matches does not matter to the overwrite, and spans
    that overlap are written as one: in particular the file is the same
    whether the matches are sorted or not. *)
Theorem overwrite_bytes_order (ms ms' : list Yara.Match) (content : list Z) (b : Z) :
  Overwrite.in_bounds (List.length content) ms ->
  Permutation ms ms' ->
  overwrite_bytes content ms b = overwrite_bytes content ms' b.
Proof.
  intros H P. pose proof (in_bounds_perm _ _ _ P H) as H'.
  destruct (overwrite_bytes_nth ms content b H) as [L N].
  destruct (overwrite_bytes_nth ms' content b H') as [L' N'].
  apply nth_error_ext. intros i.
  destruct (Nat.lt_ge_cases i (List.length content)) as [Hi|Hi].
  - rewrite N, N' by exact Hi. now rewrite (covered_perm _ _ i P).
  - rewrite (proj2 (nth_error_None _ _)) by lia.
    rewrite (proj2 (nth_error_None _ _)) by lia. reflexivity.
Qed.

Lemma overwrite_bytes_order_witness :
  overwrite_bytes Scenario.overlap_trace
    [ {| Yara.offset := 0; Yara.length := 3; Yara.pattern := "$shift3" |};
      {| Yara.offset := 1; Yara.length := 2; Yara.pattern := "$ident1" |} ] 170
  = overwrite_bytes Scenario.overlap_trace
      [ {| Yara.offset := 1; Yara.length := 2; Yara.pattern := "$ident1" |};
        {| Yara.offset := 0; Yara.length := 3; Yara.pattern := "$shift3" |} ] 170.
Proof.
  apply overwrite_bytes_order.
  - repeat constructor.
  - apply perm_swap.
Defined.

(** Overwriting what was overwritten changes nothing. *)
Theorem overwrite_bytes_idempotent (ms : list Yara.Match) (content : list Z) (b : Z) :
  Overwrite.in_bounds (List.length content) ms ->
  overwrite_bytes (overwrite_bytes content ms b) ms b = overwrite_bytes content ms b.
Proof.
  intros H. destruct (overwrite_bytes_nth ms content b H) as [L N].
  assert (H2 : Overwrite.in_bounds (List.length (overwrite_bytes content ms b)) ms)
    by now rewrite L.
  destruct (overwrite_bytes_nth ms _ b H2) as [L2 N2].
  apply nth_error_ext. intros i.
  destruct (Nat.lt_ge_cases i (List.length content)) as [Hi|Hi].
  - rewrite N2 by (rewrite L; exact Hi). rewrite N by exact Hi.
    destruct (Overwrite.covered ms i); reflexivity.
  - rewrite (proj2 (nth_error_None _ _)) by lia.
    rewrite (proj2 (nth_error_None _ _)) by lia. reflexivity.
Qed.

Lemma overwrite_bytes_idempotent_witness :
  overwrite_bytes
    (overwrite_bytes Scenario.overlap_trace
       [ {| Yara.offset := 0; Yara.length := 3; Yara.pattern := "$shift3" |};
         {| Yara.offset := 1; Yara.length := 2; Yara.pattern := "$ident1" |} ] 170)
    [ {| Yara.offset := 0; Yara.length := 3; Yara.pattern := "$shift3" |};
      {| Yara.offset := 1; Yara.length := 2; Yara.pattern := "$ident1" |} ] 170
  = overwrite_bytes Scenario.overlap_trace
      [ {| Yara.offset := 0; Yara.length := 3; Yara.pattern := "$shift3" |};
        {| Yara.offset := 1; Yara.length := 2; Yara.pattern := "$ident1" |} ] 170.
Proof.
  apply overwrite_bytes_idempotent. repeat constructor.
Defined.

(** ** redact.py: what a run does to the files *)

Lemma match_here_length (pat : list Yara.byte_pattern) (hay : list Z) :
  Yara.match_here pat hay = true -> (List.length pat <= List.length hay)%nat.
Proof.
  revert hay. induction pat as [|p ps IH]; intros [|b bs]; cbn; try lia; try discriminate.
  rewrite andb_true_iff. intros [_ H]. apply IH in H. lia.
Qed.

(** The span of a match lies inside the haystack. *)
Lemma all_matches_in_bounds (rules : list Yara.compiled_rule) (hay : list Z) :
  Overwrite.in_bounds (List.length hay) (Yara.all_matches rules hay).
Proof.
  unfold Overwrite.in_bounds. apply List.Forall_forall. intros m Hm.
  apply all_matches_spec in Hm. destruct Hm as [r [pat [_ [_ [Hl [Ho Hm]]]]]].
  apply match_here_length in Hm. rewrite length_skipn in Hm. lia.
Qed.

Lemma matches_from_in_bounds (rules : list Yara.compiled_rule) (hay : list Z) :
  Overwrite.in_bounds (List.length hay) (matches_from (Yara.scan_bytes rules hay)).
Proof.
  unfold matches_from. rewrite collect_matches_all.
  apply (in_bounds_perm _ _ _ (sorted_perm Yara.offset _)), all_matches_in_bounds.
Qed.

Lemma in_bounds_not_covered (size : nat) (ms : list Yara.Match) (i : nat) :
  Overwrite.in_bounds size ms -> (size <= i)%nat -> Overwrite.covered ms i = false.
Proof.
  unfold Overwrite.in_bounds, Overwrite.covered. intros H Hi.
  induction H as [|m ms Hm _ IH]; [reflexivity|]. cbn [existsb]. rewrite IH, orb_false_r.
  unfold Overwrite.within. apply andb_false_iff. right. apply Nat.ltb_ge. lia.
Qed.

Lemma covered_spec (ms : list Yara.Match) (i : nat) :
  Overwrite.covered ms i = true
  <-> exists m, In m ms /\ (Yara.offset m <= i < Yara.offset m + Yara.length m)%nat.
Proof.
  unfold Overwrite.covered. rewrite existsb_exists. unfold Overwrite.within.
  split; intros [m [Hm H]]; exists m; (split; [exact Hm|]).
  - apply andb_true_iff in H. destruct H as [H1 H2].
    apply Nat.leb_le in H1. apply Nat.ltb_lt in H2. lia.
  - apply andb_true_iff. split; [apply Nat.leb_le | apply Nat.ltb_lt]; lia.
Qed.

(** Scanning a file and overwriting what [matches_from] returns: a byte
    of the new content is the filler 0xAA when it lies in an occurrence
    of a string of the rule set, and is the old byte when it lies in
    none; the content has the size it had. *)
Theorem scan_then_overwrite (rules : list Yara.compiled_rule) (bytes : list Z) (i : nat) :
  nth_error (overwrite_bytes bytes (matches_from (Yara.scan_bytes rules bytes)) 170) i
  = (if Overwrite.covered (Yara.all_matches rules bytes) i
     then Some 170 else nth_error bytes i)
  /\ (Overwrite.covered (Yara.all_matches rules bytes) i = true
      <-> exists m, Yara.occurrence rules bytes m
                    /\ (Yara.offset m <= i < Yara.offset m + Yara.length m)%nat)
  /\ List.length (overwrite_bytes bytes (matches_from (Yara.scan_bytes rules bytes)) 170)
     = List.length bytes.
Proof.
  pose proof (matches_from_in_bounds rules bytes) as Hb.
  pose proof (overwrite_bytes_length _ _ 170 Hb) as L.
  split; [|split; [|exact L]].
  - assert (Hc : Overwrite.covered (matches_from (Yara.scan_bytes rules bytes)) i
                 = Overwrite.covered (Yara.all_matches rules bytes) i).
    { unfold matches_from. rewrite collect_matches_all. symmetry.
      apply covered_perm, sorted_perm. }
    rewrite <- Hc.
    destruct (Nat.lt_ge_cases i (List.length bytes)) as [Hi|Hi].
    + now apply overwrite_bytes_nth.
    + rewrite (in_bounds_not_covered _ _ i Hb Hi).
      rewrite (proj2 (nth_error_None _ _)) by lia.
      now rewrite (proj2 (nth_error_None _ _)) by lia.
  - rewrite covered_spec. split; intros [m [Hm H]]; exists m; (split; [|exact H]);
      now apply all_matches_spec.
Qed.

Lemma only_filled_refl (c : list Z) : Overwrite.only_filled c c.
Proof. induction c; constructor; auto. Qed.

Lemma only_filled_trans (a b c : list Z) :
  Overwrite.only_filled a b -> Overwrite.only_filled b c -> Overwrite.only_filled a c.
Proof.
  unfold Overwrite.only_filled. intros H. revert c.
  induction H as [|x y l l' Hxy _ IH]; intros c Hc; inversion Hc; subst; constructor.
  - intuition congruence.
  - now apply IH.
Qed.

Lemma only_filled_repeat (l : list Z) :
  Overwrite.only_filled l (repeat 170 (List.length l)).
Proof. induction l; cbn; constructor; auto. Qed.

Lemma write_at_only_filled (content : list Z) (off n : nat) :
  (off + n <= List.length content)%nat ->
  Overwrite.only_filled content (write_at content off (repeat 170 n)).
Proof.
  intros H. unfold write_at, Overwrite.only_filled.
  replace (off - List.length content)%nat with 0%nat by lia. cbn [repeat app].
  rewrite repeat_length.
  rewrite <- (firstn_skipn off content) at 1.
  apply Forall2_app; [apply only_filled_refl|].
  rewrite <- (firstn_skipn n (skipn off content)) at 1.
  rewrite skipn_skipn, (Nat.add_comm n off).
  apply Forall2_app; [|apply only_filled_refl].
  replace n with (List.length (firstn n (skipn off content))) at 2
    by (rewrite length_firstn, length_skipn; lia).
  apply only_filled_repeat.
Qed.

Lemma overwrite_only_filled (matches : list Yara.Match) (content : list Z) :
  Overwrite.in_bounds (List.length content) matches ->
  Overwrite.only_filled content (overwrite_bytes content matches 170).
Proof.
  revert content. induction matches as [|m ms IH]; intros content H;
    [apply only_filled_refl|].
  inversion H as [|? ? Hm Hms]; subst. cbn [overwrite_bytes fold_left].
  fold (overwrite_bytes (write_at content (Yara.offset m) (repeat 170 (Yara.length m))) ms 170).
  eapply only_filled_trans; [apply write_at_only_filled; exact Hm|].
  apply IH. rewrite write_at_length by (rewrite repeat_length; exact Hm). exact Hms.
Qed.

Lemma redacted_from_refl (fs : gmap string (list Z)) : Overwrite.redacted_from fs fs.
Proof. intros p. destruct (fs !! p); [apply only_filled_refl | exact I]. Qed.

Lemma redacted_from_step (fs : gmap string (list Z)) (h : string) (old new : list Z)
    (fs' : gmap string (list Z)) :
  fs !! h = Some old -> Overwrite.only_filled old new ->
  Overwrite.redacted_from (<[h := new]> fs) fs' ->
  Overwrite.redacted_from fs fs'.
Proof.
  intros Hh Hf H p. specialize (H p).
  destruct (decide (h = p)) as [<-|Hne].
  - rewrite lookup_insert_eq in H. rewrite Hh.
    destruct (fs' !! h); [|exact H]. eapply only_filled_trans; eassumption.
  - rewrite lookup_insert_ne in H by exact Hne. exact H.
Qed.

Lemma scan_inr {strict : bool} (needle : list Yara.rule) (fs : gmap string (list Z)) (h : string)
    (results : list (list (string * list Yara.Match))) :
  scan strict needle fs h = inr results ->
  exists rules bytes,
    Yara.compile strict needle = inr rules /\ fs !! h = Some bytes
    /\ results = Yara.scan_bytes rules bytes.
Proof.
  unfold scan. destruct (Yara.compile strict needle) as [e|rules]; cbn [bind]; [discriminate|].
  destruct (fs !! h) as [bytes|]; [|discriminate].
  intros E. injection E as <-. now exists rules, bytes.
Qed.

(** The second loop writes the filler and nothing else, into the files it
    is given and into no other. *)
Lemma redact_loop_only_fills {strict : bool} (needle : list Yara.rule) (haystacks : list string) :
  forall (fs : gmap string (list Z)) (EXIT : Z) (rep : list (string * outcome)),
    Overwrite.redacted_from fs (disk (redact_loop strict needle fs haystacks EXIT rep))
    /\ forall p, ~ In p haystacks ->
                 disk (redact_loop strict needle fs haystacks EXIT rep) !! p = fs !! p.
Proof.
  induction haystacks as [|h rest IH]; intros fs EXIT rep.
  - cbn. split; [apply redacted_from_refl | reflexivity].
  - cbn [redact_loop].
    destruct (scan strict needle fs h) as [e|results] eqn:Es;
      [cbn; split; [apply redacted_from_refl | reflexivity]|].
    destruct (scan_inr _ _ _ _ Es) as [rules [bytes [Ec [Eh ->]]]].
    pose proof (matches_from_in_bounds rules bytes) as Hb.
    destruct (matches_from (Yara.scan_bytes rules bytes)) as [|m before] eqn:Eb.
    + destruct (IH fs EXIT (rep ++ [(h, NoMatches)])) as [H1 H2].
      split; [exact H1|]. intros p Hp. apply H2. intros Hin. apply Hp. now right.
    + unfold overwrite_file. rewrite Eh. cbn [ret].
      set (new := overwrite_bytes bytes (m :: before) 170) in *.
      assert (Hf : Overwrite.only_filled bytes new) by now apply overwrite_only_filled.
      set (fs1 := <[h := new]> fs).
      assert (Step : forall r : run,
                 (Overwrite.redacted_from fs1 (disk r)
                  /\ forall p, ~ In p rest -> disk r !! p = fs1 !! p) ->
                 Overwrite.redacted_from fs (disk r)
                 /\ forall p, ~ In p (h :: rest) -> disk r !! p = fs !! p).
      { intros r [H1 H2]. split.
        - eapply redacted_from_step; eassumption.
        - intros p Hp. rewrite H2 by (intros Hin; apply Hp; now right).
          unfold fs1. apply lookup_insert_ne. intros ->. apply Hp. now left. }
      assert (E1 : fs1 !! h = Some new) by apply lookup_insert_eq.
      rewrite (scan_readable _ _ _ _ _ Ec E1).
      destruct (0 <? List.length (Yara.scan_bytes rules new))%nat; apply Step, IH.
Qed.

(** A run, however it ends, leaves every file with its size, writes no
    byte other than the filler 0xAA, creates and removes no file, and
    leaves alone the files that are not among its arguments. *)
Theorem main_only_fills (strict : bool)
    (rdpcap : list Z -> option (list Extract.packet)) (parse : list Z -> option emm_msg)
    (fs : gmap string (list Z)) (haystacks : list string) :
  Overwrite.redacted_from fs (disk (main strict rdpcap parse fs haystacks))
  /\ forall p, ~ In p haystacks -> disk (main strict rdpcap parse fs haystacks) !! p = fs !! p.
Proof.
  unfold main. destruct (collect_idents rdpcap parse fs haystacks ∅) as [e|idents];
    [cbn; split; [apply redacted_from_refl | reflexivity]|].
  destruct (build_needle idents) as [e|needle];
    [cbn; split; [apply redacted_from_refl | reflexivity]|].
  apply redact_loop_only_fills.
Qed.

(** ** redact.py: what the exit status says about the files *)

Lemma matches_from_nil (rules : list Yara.compiled_rule) (bytes : list Z) :
  matches_from (Yara.scan_bytes rules bytes) = [] <-> Overwrite.clean rules bytes.
Proof.
  unfold matches_from, Overwrite.clean. rewrite collect_matches_all. split.
  - intros H. pose proof (sorted_perm Yara.offset (Yara.all_matches rules bytes)) as P.
    rewrite H in P. now apply Permutation_nil, Permutation_sym.
  - intros ->. reflexivity.
Qed.

Lemma scan_bytes_nil (rules : list Yara.compiled_rule) (bytes : list Z) :
  Yara.scan_bytes rules bytes = [] -> Overwrite.clean rules bytes.
Proof.
  intros H. unfold Overwrite.clean. rewrite <- collect_matches_all, H. reflexivity.
Qed.

(** A file without a match is not written, however often it is listed. *)
Lemma redact_loop_keeps_clean {strict : bool} (needle : list Yara.rule) (rules : list Yara.compiled_rule)
    (p : string) (bytes : list Z) :
  Yara.compile strict needle = inr rules -> Overwrite.clean rules bytes ->
  forall (haystacks : list string) (fs : gmap string (list Z)) (EXIT : Z)
         (rep : list (string * outcome)),
    fs !! p = Some bytes ->
    disk (redact_loop strict needle fs haystacks EXIT rep) !! p = Some bytes.
Proof.
  intros Hc Hcl. induction haystacks as [|h rest IH]; intros fs EXIT rep Hp; [exact Hp|].
  cbn [redact_loop].
  destruct (scan strict needle fs h) as [e|results] eqn:Es; [exact Hp|].
  destruct (scan_inr _ _ _ _ Es) as [rules' [content [Ec [Eh ->]]]].
  rewrite Hc in Ec. injection Ec as <-.
  destruct (matches_from (Yara.scan_bytes rules content)) as [|m before] eqn:Eb;
    [now apply IH|].
  unfold overwrite_file. rewrite Eh. cbn [ret].
  set (fs1 := <[h := overwrite_bytes content (m :: before) 170]> fs).
  assert (E1 : fs1 !! h = Some (overwrite_bytes content (m :: before) 170))
    by apply lookup_insert_eq.
  rewrite (scan_readable _ _ _ _ _ Hc E1).
  assert (Hp1 : fs1 !! p = Some bytes).
  { unfold fs1. rewrite lookup_insert_ne; [exact Hp|]. intros ->.
    rewrite Hp in Eh. injection Eh as <-.
    apply matches_from_nil in Hcl. rewrite Hcl in Eb. discriminate. }
  destruct (0 <? List.length _)%nat; now apply IH.
Qed.

(** The status of the second loop is the one it started with, or 2. *)
Lemma redact_loop_status {strict : bool} (needle : list Yara.rule) (haystacks : list string) :
  forall (fs : gmap string (list Z)) (EXIT : Z) (rep : list (string * outcome)) (c : Z),
    ended (redact_loop strict needle fs haystacks EXIT rep) = Exit c -> c = EXIT \/ c = 2.
Proof.
  induction haystacks as [|h rest IH]; intros fs EXIT rep c.
  - cbn. intros E. injection E as <-. now left.
  - cbn [redact_loop].
    destruct (scan strict needle fs h) as [e|results]; [discriminate|].
    destruct (matches_from results) as [|m before]; [apply IH|].
    destruct (overwrite_file fs h (m :: before) 170) as [e|fs']; [discriminate|].
    destruct (scan strict needle fs' h) as [e|after]; [discriminate|].
    destruct (0 <? List.length after)%nat; [|apply IH].
    intros E. apply IH in E. right. now destruct E.
Qed.

Lemma redact_loop_exit_clean {strict : bool} (needle : list Yara.rule) (rules : list Yara.compiled_rule) :
  Yara.compile strict needle = inr rules ->
  forall (haystacks : list string) (fs : gmap string (list Z)) (EXIT : Z)
         (rep : list (string * outcome)),
    EXIT <> 2 ->
    ended (redact_loop strict needle fs haystacks EXIT rep) = Exit EXIT ->
    forall h, In h haystacks ->
      exists bytes, disk (redact_loop strict needle fs haystacks EXIT rep) !! h = Some bytes
                    /\ Overwrite.clean rules bytes.
Proof.
  intros Hc. induction haystacks as [|h rest IH]; intros fs EXIT rep H2 He h' Hin;
    [destruct Hin|].
  revert He. cbn [redact_loop].
  destruct (scan strict needle fs h) as [e|results] eqn:Es; [discriminate|].
  destruct (scan_inr _ _ _ _ Es) as [rules' [content [Ec [Eh ->]]]].
  rewrite Hc in Ec. injection Ec as <-.
  destruct (matches_from (Yara.scan_bytes rules content)) as [|m before] eqn:Eb.
  - intros He. destruct (in_dec string_dec h' rest) as [Hr|Hr]; [now apply IH|].
    destruct Hin as [<-|Hin]; [|contradiction].
    apply matches_from_nil in Eb. exists content. split; [|exact Eb].
    now apply (redact_loop_keeps_clean needle rules h content Hc Eb).
  - unfold overwrite_file. rewrite Eh. cbn [ret].
    set (new := overwrite_bytes content (m :: before) 170).
    set (fs1 := <[h := new]> fs).
    assert (E1 : fs1 !! h = Some new) by apply lookup_insert_eq.
    rewrite (scan_readable _ _ _ _ _ Hc E1).
    destruct (Yara.scan_bytes rules new) as [|r after] eqn:Ea; cbn [List.length Nat.ltb Nat.leb].
    + intros He. destruct (in_dec string_dec h' rest) as [Hr|Hr]; [now apply IH|].
      destruct Hin as [<-|Hin]; [|contradiction].
      apply scan_bytes_nil in Ea. exists new. split; [|exact Ea].
      now apply (redact_loop_keeps_clean needle rules h new Hc Ea).
    + intros He. apply redact_loop_status in He. destruct He; contradiction.
Qed.

(** Status 0 on at least one file means that the rule set built from the
    identities compiled and that, at the end, none of its strings occurs
    in any of the files given. *)
Theorem main_exit_0_clean (strict : bool)
    (rdpcap : list Z -> option (list Extract.packet)) (parse : list Z -> option emm_msg)
    (fs : gmap string (list Z)) (haystacks : list string) :
  haystacks <> [] ->
  ended (main strict rdpcap parse fs haystacks) = Exit 0 ->
  exists idents needle rules,
    collect_idents rdpcap parse fs haystacks ∅ = inr idents
    /\ build_needle idents = inr needle
    /\ Yara.compile strict needle = inr rules
    /\ forall h, In h haystacks ->
         exists bytes, disk (main strict rdpcap parse fs haystacks) !! h = Some bytes
                       /\ Overwrite.clean rules bytes.
Proof.
  intros Hne. unfold main.
  destruct (collect_idents rdpcap parse fs haystacks ∅) as [e|idents]; [discriminate|].
  destruct (build_needle idents) as [e|needle] eqn:En; [discriminate|].
  intros He. exists idents, needle.
  destruct (Yara.compile strict needle) as [e|rules] eqn:Ec.
  - exfalso. destruct haystacks as [|h rest]; [now apply Hne|].
    cbn [redact_loop] in He. unfold scan in He. rewrite Ec in He. discriminate.
  - exists rules. split; [reflexivity|]. split; [exact En|]. split; [reflexivity|].
    now apply (redact_loop_exit_clean needle rules Ec haystacks fs 0 []).
Qed.

(** A file in which no string of the rule set occurs is left as it is,
    byte for byte, whether or not it is among the files given. *)
Theorem main_keeps_clean_files (strict : bool)
    (rdpcap : list Z -> option (list Extract.packet)) (parse : list Z -> option emm_msg)
    (fs : gmap string (list Z)) (haystacks : list string)
    (idents : gset identity) (needle : list Yara.rule) (rules : list Yara.compiled_rule)
    (p : string) (bytes : list Z) :
  collect_idents rdpcap parse fs haystacks ∅ = inr idents ->
  build_needle idents = inr needle ->
  Yara.compile strict needle = inr rules ->
  fs !! p = Some bytes -> Overwrite.clean rules bytes ->
  disk (main strict rdpcap parse fs haystacks) !! p = Some bytes.
Proof.
  intros Hi Hn Hc Hp Hcl. unfold main. rewrite Hi, Hn.
  now apply (redact_loop_keeps_clean needle rules p bytes Hc Hcl).
Qed.

Lemma redact_loop_clean_noop {strict : bool} (needle : list Yara.rule) (rules : list Yara.compiled_rule) :
  Yara.compile strict needle = inr rules ->
  forall (haystacks : list string) (fs : gmap string (list Z)) (EXIT : Z)
         (rep : list (string * outcome)),
    (forall h, In h haystacks ->
       exists bytes, fs !! h = Some bytes /\ Overwrite.clean rules bytes) ->
    redact_loop strict needle fs haystacks EXIT rep
    = {| ended := Exit EXIT; disk := fs;
         report := rep ++ map (fun h => (h, NoMatches)) haystacks |}.
Proof.
  intros Hc. induction haystacks as [|h rest IH]; intros fs EXIT rep H.
  - cbn. now rewrite app_nil_r.
  - destruct (H h (or_introl eq_refl)) as [bytes [Eh Hcl]].
    cbn [redact_loop]. rewrite (scan_readable _ _ _ _ _ Hc Eh).
    apply matches_from_nil in Hcl. rewrite Hcl.
    rewrite IH by (intros h' Hin; apply H; now right).
    cbn [map]. now rewrite <- app_assoc.
Qed.

(** A second pass with the same rules over the files of a pass that ended
    with status 0 writes nothing and finds no identity in any file. *)
Theorem redact_loop_again (strict : bool) (needle : list Yara.rule) (rules : list Yara.compiled_rule)
    (haystacks : list string) (fs : gmap string (list Z)) (rep rep' : list (string * outcome)) :
  Yara.compile strict needle = inr rules ->
  ended (redact_loop strict needle fs haystacks 0 rep) = Exit 0 ->
  redact_loop strict needle (disk (redact_loop strict needle fs haystacks 0 rep)) haystacks 0 rep'
  = {| ended := Exit 0; disk := disk (redact_loop strict needle fs haystacks 0 rep);
       report := rep' ++ map (fun h => (h, NoMatches)) haystacks |}.
Proof.
  intros Hc He. apply (redact_loop_clean_noop needle rules Hc).
  apply (redact_loop_exit_clean needle rules Hc haystacks fs 0 rep); [lia | exact He].
Qed.

(** When the captures yield no identity, nothing is written: every file
    is reported without identities and the status is 0. *)
Theorem main_nothing_to_redact (strict : bool)
    (rdpcap : list Z -> option (list Extract.packet)) (parse : list Z -> option emm_msg)
    (fs : gmap string (list Z)) (haystacks : list string) :
  collect_idents rdpcap parse fs haystacks ∅ = inr ∅ ->
  main strict rdpcap parse fs haystacks
  = {| ended := Exit 0; disk := fs;
       report := map (fun h => (h, NoMatches)) haystacks |}.
Proof.
  intros Hi. unfold main. rewrite Hi. unfold build_needle. rewrite elements_empty.
  cbn [mapM ret]. apply (redact_loop_clean_noop [] [] eq_refl).
  intros h Hin. destruct (collect_idents_readable _ _ _ _ _ _ Hi h Hin) as [bytes Hb].
  exists bytes. split; [exact Hb | reflexivity].
Qed.

Lemma identities_of_missing
    (rdpcap : list Z -> option (list Extract.packet)) (parse : list Z -> option emm_msg)
    (fs : gmap string (list Z)) (h : string) :
  fs !! h = None -> identities_of rdpcap parse fs h = inl OSError.
Proof. intros H. unfold identities_of. now rewrite H. Qed.

Lemma collect_idents_raises
    (rdpcap : list Z -> option (list Extract.packet)) (parse : list Z -> option emm_msg)
    (fs : gmap string (list Z)) (before after : list string) (h : string) (e : exn) :
  (forall h', In h' before -> exists found, identities_of rdpcap parse fs h' = inr found) ->
  identities_of rdpcap parse fs h = inl e ->
  forall acc, collect_idents rdpcap parse fs (before ++ h :: after) acc = inl e.
Proof.
  induction before as [|h0 before IH]; intros Hb He acc; cbn [app collect_idents].
  - now rewrite He.
  - destruct (Hb h0 (or_introl eq_refl)) as [found Hf]. rewrite Hf. cbn [bind].
    apply IH; [|exact He]. intros h' Hin. apply Hb. now right.
Qed.

Lemma collect_idents_stops
    (rdpcap : list Z -> option (list Extract.packet)) (parse : list Z -> option emm_msg)
    (fs : gmap string (list Z)) (before after : list string) (h : string) (e : exn) :
  identities_of rdpcap parse fs h = inl e ->
  forall acc, exists e', collect_idents rdpcap parse fs (before ++ h :: after) acc = inl e'.
Proof.
  intros He. induction before as [|h0 before IH]; intros acc; cbn [app collect_idents].
  - rewrite He. eauto.
  - destruct (identities_of rdpcap parse fs h0) as [e0|found]; [eauto|]. apply IH.
Qed.

(** A file that cannot be opened stops the run before anything is
    scanned, reported or written, wherever the file stands in the list:
    nothing in the tool catches the exception of [open].  The exception
    that ends the run is that [OSError] when the extraction has not
    raised on a file listed before. *)
Theorem main_missing_file (strict : bool)
    (rdpcap : list Z -> option (list Extract.packet)) (parse : list Z -> option emm_msg)
    (fs : gmap string (list Z)) (before after : list string) (h : string) :
  fs !! h = None ->
  (exists e, main strict rdpcap parse fs (before ++ h :: after)
             = {| ended := Uncaught e; disk := fs; report := [] |})
  /\ ((forall h', In h' before ->
         exists found, identities_of rdpcap parse fs h' = inr found) ->
      main strict rdpcap parse fs (before ++ h :: after)
      = {| ended := Uncaught OSError; disk := fs; report := [] |}).
Proof.
  intros Hh. pose proof (identities_of_missing rdpcap parse fs h Hh) as He. split.
  - destruct (collect_idents_stops rdpcap parse fs before after h OSError He ∅) as [e E].
    exists e. unfold main. now rewrite E.
  - intros Hb. unfold main.
    now rewrite (collect_idents_raises rdpcap parse fs before after h OSError Hb He).
Qed.

Lemma collect_idents_acc
    (rdpcap : list Z -> option (list Extract.packet)) (parse : list Z -> option emm_msg)
    (fs : gmap string (list Z)) (haystacks : list string) :
  (forall h, In h haystacks -> exists found, identities_of rdpcap parse fs h = inr found) ->
  forall acc, exists idents,
    collect_idents rdpcap parse fs haystacks acc = inr idents
    /\ forall i, i ∈ idents <->
         i ∈ acc \/ exists h found,
           In h haystacks /\ identities_of rdpcap parse fs h = inr found /\ In i found.
Proof.
  induction haystacks as [|h rest IH]; intros Hr acc.
  - exists acc. split; [reflexivity|]. intros i. split; [now left|].
    intros [H|[h [f [[] _]]]]. exact H.
  - destruct (Hr h (or_introl eq_refl)) as [found Ef].
    assert (Hrest : forall h', In h' rest ->
                      exists found, identities_of rdpcap parse fs h' = inr found)
      by (intros h' Hin; apply Hr; now right).
    cbn [collect_idents]. rewrite Ef. cbn [bind].
    destruct (IH Hrest (acc ∪ list_to_set found)) as [idents [E H]].
    exists idents. split; [exact E|]. intros i. rewrite H, elem_of_union,
      elem_of_list_to_set, list_elem_of_In. split.
    + intros [[Ha|Hm]|[h' [f [Hin Hx]]]].
      * now left.
      * right. exists h, found. split; [left; reflexivity | split; assumption].
      * right. exists h', f. split; [now right | exact Hx].
    + intros [Ha|[h' [f [[<-|Hin] [Hf Hi]]]]].
      * left. now left.
      * rewrite Ef in Hf. injection Hf as <-. left. now right.
      * right. exists h', f. auto.
Qed.

Lemma identities_of_inr
    (rdpcap : list Z -> option (list Extract.packet)) (parse : list Z -> option emm_msg)
    (fs : gmap string (list Z)) (h : string) (found : list identity) :
  identities_of rdpcap parse fs h = inr found
  <-> exists bytes, fs !! h = Some bytes
        /\ ((rdpcap bytes = None /\ found = [])
            \/ exists packets, rdpcap bytes = Some packets
                               /\ Extract.main parse packets = inr found).
Proof.
  unfold identities_of. destruct (fs !! h) as [bytes|].
  - destruct (rdpcap bytes) as [packets|] eqn:Er; split.
    + intros H. exists bytes. split; [reflexivity|]. right. eauto.
    + intros [b [Hb [[H _]|[ps [Hp Hm]]]]]; inversion Hb; subst b; congruence.
    + intros H. inversion H. exists bytes. split; [reflexivity|]. left. auto.
    + intros [b [Hb [[_ ->]|[ps [Hp _]]]]]; inversion Hb; subst b; [reflexivity | congruence].
  - split; [discriminate | intros [b [Hb _]]; discriminate].
Qed.

Lemma identities_of_inl
    (rdpcap : list Z -> option (list Extract.packet)) (parse : list Z -> option emm_msg)
    (fs : gmap string (list Z)) (h : string) (e : exn) :
  identities_of rdpcap parse fs h = inl e
  <-> (fs !! h = None /\ e = OSError)
      \/ exists bytes packets, fs !! h = Some bytes /\ rdpcap bytes = Some packets
                               /\ Extract.main parse packets = inl e.
Proof.
  unfold identities_of. destruct (fs !! h) as [bytes|].
  - destruct (rdpcap bytes) as [packets|] eqn:Er; split.
    + intros H. right. eauto.
    + intros [[H _]|[b [ps [Hb [Hp Hm]]]]]; [discriminate|].
      inversion Hb; subst b. congruence.
    + discriminate.
    + intros [[H _]|[b [ps [Hb [Hp _]]]]]; [discriminate|].
      inversion Hb; subst b. congruence.
  - split.
    + intros H. inversion H. left. auto.
    + intros [[_ ->]|[b [ps [Hb _]]]]; [reflexivity | discriminate].
Qed.

(** The first loop.  When the extraction raises on none of the files and
    all of them can be opened, the loop ends normally and the identity set
    is exactly the set of the identities extracted from the files that
    are captures; a file that is not a capture contributes nothing and
    does not stop the loop.  Otherwise the loop ends with the exception
    of the first file that raises: [OSError] for a file that cannot be
    opened, or what the extraction raises on the packets of a capture. *)
Theorem collect_idents_spec
    (rdpcap : list Z -> option (list Extract.packet)) (parse : list Z -> option emm_msg)
    (fs : gmap string (list Z)) (haystacks : list string) :
  ((forall h, In h haystacks -> exists found, identities_of rdpcap parse fs h = inr found) ->
   exists idents,
     collect_idents rdpcap parse fs haystacks ∅ = inr idents
     /\ forall i, i ∈ idents <->
          exists h found, In h haystacks /\ identities_of rdpcap parse fs h = inr found
                          /\ In i found)
  /\ (forall before h after e,
        haystacks = before ++ h :: after ->
        (forall h', In h' before ->
           exists found, identities_of rdpcap parse fs h' = inr found) ->
        identities_of rdpcap parse fs h = inl e ->
        collect_idents rdpcap parse fs haystacks ∅ = inl e)
  /\ (forall h found,
        identities_of rdpcap parse fs h = inr found
        <-> exists bytes, fs !! h = Some bytes
              /\ ((rdpcap bytes = None /\ found = [])
                  \/ exists packets, rdpcap bytes = Some packets
                                     /\ Extract.main parse packets = inr found))
  /\ (forall h e,
        identities_of rdpcap parse fs h = inl e
        <-> (fs !! h = None /\ e = OSError)
            \/ exists bytes packets, fs !! h = Some bytes /\ rdpcap bytes = Some packets
                                     /\ Extract.main parse packets = inl e).
Proof.
  split; [|split; [|split]].
  - intros Hr. destruct (collect_idents_acc rdpcap parse fs haystacks Hr ∅) as [idents [E H]].
    exists idents. split; [exact E|]. intros i. rewrite H. split; [|now right].
    intros [Ha|Hx]; [|exact Hx]. set_solver.
  - intros before h after e -> Hb He. now apply collect_idents_raises.
  - apply identities_of_inr.
  - apply identities_of_inl.
Qed.

Lemma main_exit_0_clean_witness :
  exists idents needle rules,
    collect_idents Scenario.one_packet (Scenario.always (1, "24"))
      {[ "b.pcap" := [0x07; 0x21; 0xf4; 0x09] ]} ["b.pcap"] ∅ = inr idents
    /\ build_needle idents = inr needle
    /\ Yara.compile true needle = inr rules
    /\ forall h, In h ["b.pcap"] ->
         exists bytes,
           disk (main true Scenario.one_packet (Scenario.always (1, "24"))
                      {[ "b.pcap" := [0x07; 0x21; 0xf4; 0x09] ]} ["b.pcap"]) !! h
           = Some bytes
           /\ Overwrite.clean rules bytes.
Proof.
  apply (main_exit_0_clean true Scenario.one_packet (Scenario.always (1, "24"))
           {[ "b.pcap" := [0x07; 0x21; 0xf4; 0x09] ]} ["b.pcap"]).
  - discriminate.
  - vm_compute; reflexivity.
Defined.

(** A file of notes beside the captures, listed or not, is not written. *)
Lemma main_keeps_clean_files_witness :
  disk (main true Scenario.one_packet (Scenario.always (1, "24"))
             (<["notes.txt" := [0x00; 0x01]]> Scenario.two_files)
             ["a.pcap"; "notes.txt"; "b.pcap"]) !! "notes.txt"
  = Some [0x00; 0x01].
Proof.
  apply (main_keeps_clean_files true Scenario.one_packet (Scenario.always (1, "24"))
           (<["notes.txt" := [0x00; 0x01]]> Scenario.two_files)
           ["a.pcap"; "notes.txt"; "b.pcap"] {[ (1, "24") ]}
           Scenario.needle_24 Scenario.rules_24);
    vm_compute; reflexivity.
Defined.

Lemma redact_loop_again_witness :
  redact_loop true Scenario.needle_24
    (disk (redact_loop true Scenario.needle_24 {[ "b.pcap" := [0x07; 0x21; 0xf4; 0x09] ]}
                       ["b.pcap"] 0 []))
    ["b.pcap"] 0 []
  = {| ended := Exit 0;
       disk := disk (redact_loop true Scenario.needle_24
                       {[ "b.pcap" := [0x07; 0x21; 0xf4; 0x09] ]} ["b.pcap"] 0 []);
       report := [] ++ map (fun h => (h, NoMatches)) ["b.pcap"] |}.
Proof.
  apply (redact_loop_again true Scenario.needle_24 Scenario.rules_24);
    vm_compute; reflexivity.
Defined.

Lemma main_nothing_to_redact_witness :
  main true Scenario.not_a_capture (Scenario.always (1, "24")) Scenario.two_files
       ["a.pcap"; "b.pcap"]
  = {| ended := Exit 0; disk := Scenario.two_files;
       report := map (fun h => (h, NoMatches)) ["a.pcap"; "b.pcap"] |}.
Proof.
  apply main_nothing_to_redact. vm_compute; reflexivity.
Defined.

Lemma main_missing_file_witness :
  (exists e, main true Scenario.one_packet (Scenario.always (1, "24")) Scenario.two_files
                  (["a.pcap"] ++ "c.pcap" :: ["b.pcap"])
             = {| ended := Uncaught e; disk := Scenario.two_files; report := [] |})
  /\ ((forall h', In h' ["a.pcap"] ->
         exists found,
           identities_of Scenario.one_packet (Scenario.always (1, "24"))
             Scenario.two_files h' = inr found) ->
      main true Scenario.one_packet (Scenario.always (1, "24")) Scenario.two_files
           (["a.pcap"] ++ "c.pcap" :: ["b.pcap"])
      = {| ended := Uncaught OSError; disk := Scenario.two_files; report := [] |}).
Proof.
  apply (main_missing_file true Scenario.one_packet (Scenario.always (1, "24"))
           Scenario.two_files ["a.pcap"] ["b.pcap"] "c.pcap").
  vm_compute; reflexivity.
Defined.

Lemma collect_idents_spec_witness :
  exists idents,
    collect_idents Scenario.one_packet (Scenario.always (1, "24")) Scenario.two_files
      ["a.pcap"; "b.pcap"] ∅ = inr idents
    /\ forall i, i ∈ idents <->
         exists h found,
           In h ["a.pcap"; "b.pcap"]
           /\ identities_of Scenario.one_packet (Scenario.always (1, "24"))
                Scenario.two_files h = inr found
           /\ In i found.
Proof.
  apply (proj1 (collect_idents_spec Scenario.one_packet (Scenario.always (1, "24"))
                  Scenario.two_files ["a.pcap"; "b.pcap"])).
  intros h [<-|[<-|[]]]; eexists; vm_compute; reflexivity.
Defined.

(** ** redact.py: the rule of an identity *)

(** Building the rule adds no failure to those of the encoder: it raises
    what the encoder raises, and from a value of the encoder it always
    makes a rule of four strings. *)
Theorem yara_rules_raises (typ : Z) (ident : string) :
  (forall e, yara_rules typ ident = inl e <-> identity_octets typ ident = inl e)
  /\ (forall v, identity_octets typ ident = inr v ->
        exists rule, yara_rules typ ident = inr rule
                     /\ List.length (Yara.rule_strings rule) = 4%nat
                     /\ In ("$ident" +:+ Py.str typ, Py.format_x v) (Yara.rule_strings rule)).
Proof.
  unfold yara_rules. destruct (identity_octets typ ident) as [e|v]; cbn [bind].
  - split; [intros e0; split; intros H; injection H as <-; reflexivity | discriminate].
  - unfold shift3_pattern.
    destruct (Py.format_x (Z.shiftl v 3)) as [|c s] eqn:E;
      [now apply format_x_nonempty in E|].
    cbn [Py.index0 bind ret]. split.
    + intros e. split; discriminate.
    + intros v' Hv. injection Hv as <-. eexists. split; [reflexivity|].
      split; [reflexivity | left; reflexivity].
Qed.

(** Two identities whose first digit is not 0, each an IMSI or an IMEISV
    of even length, never have the same octets: their literal strings
    differ. *)
Theorem identity_octets_injective (kind kind' : Z) (c c' : ascii) (rest rest' : string) :
  Py.all_chars Py.is_decimal (String c rest) = true ->
  Py.all_chars Py.is_decimal (String c' rest') = true ->
  c <> "0"%char -> c' <> "0"%char ->
  kind = 1 \/ (kind = 3 /\ Nat.even (String.length (String c rest)) = true) ->
  kind' = 1 \/ (kind' = 3 /\ Nat.even (String.length (String c' rest')) = true) ->
  (kind, String c rest) <> (kind', String c' rest') ->
  identity_octets kind (String c rest) <> identity_octets kind' (String c' rest').
Proof.
  intros Hd Hd' Hc Hc' Hk Hk' Hne E.
  destruct (round_trip_without_leading_zero kind c rest Hd Hc Hk) as [v [E1 R1]].
  destruct (round_trip_without_leading_zero kind' c' rest' Hd' Hc' Hk') as [v' [E2 R2]].
  rewrite E1, E2 in E. injection E as <-. rewrite R1 in R2. injection R2 as <- <- <-.
  now apply Hne.
Qed.

Lemma identity_octets_injective_witness :
  identity_octets 1 "310150123456789" <> identity_octets 1 "310150123456780".
Proof.
  apply identity_octets_injective;
    try (vm_compute; reflexivity); try discriminate; left; reflexivity.
Defined.

Lemma leading_zero_run_aborts_witness :
  exists e,
    main true Scenario.one_packet (Scenario.always (1, "001010123456789"))
         {[ "trace.pcap" := Scenario.trace64 ]} ["trace.pcap"]
    = {| ended := Uncaught e; disk := {[ "trace.pcap" := Scenario.trace64 ]};
         report := [] |}.
Proof.
  apply (leading_zero_run_aborts true Scenario.one_packet
           (Scenario.always (1, "001010123456789"))
           {[ "trace.pcap" := Scenario.trace64 ]} ["trace.pcap"]
           {[ (1, "001010123456789") ]} 1 "01010123456789").
  - vm_compute; reflexivity.
  - apply elem_of_singleton. reflexivity.
  - vm_compute; reflexivity.
  - left; reflexivity.
Defined.

(** ** redact.py: the second loop, file by file *)









(** ** redact.py: one rule for each identity *)





